(** * A shallow embedding of the vulkan-rust-tutorial renderer

    The pure parts of the renderer (memory-type selection, mip-level
    arithmetic, the command lists recorded by the upload paths, vertex
    deduplication) become Rocq functions; the device objects are handles in
    an explicit device state; the frame loop is a step relation on a state
    that pairs the CPU's position in [App::render] with the GPU's queue of
    pending submissions. *)

From Stdlib Require Import ZArith Lia Bool.
From stdpp Require Import base list gmap.

Open Scope Z_scope.

(* ================================================================== *)
(** ** Vulkan handles, results and errors *)

(** A dispatchable or non-dispatchable handle; [0] is [vk::*::null()]. *)
Abbreviation handle := N.
Definition null_handle : handle := 0%N.

(** The error side of the [anyhow::Result]s returned by the code. *)
Inductive AppError :=
  (* anyhow!("Failed to find suitable memory type.") *)
  | FailedToFindSuitableMemoryType
  (* anyhow!("Texture image format does not support linear blitting!") *)
  | FormatDoesNotSupportLinearBlitting
  (* a [vk::ErrorCode] propagated with [?] or [anyhow!(e)] *)
  | VkError (code : Z)
  (* a panic: slice or Vec indexing out of bounds *)
  | IndexOutOfBoundsPanic.

(** [vk::ErrorCode::OUT_OF_DATE_KHR] *)
Definition ERROR_OUT_OF_DATE_KHR : Z := -1000001004.
(** [vk::ErrorCode::DEVICE_LOST] *)
Definition ERROR_DEVICE_LOST : Z := -4.
(** [vk::ErrorCode::MEMORY_MAP_FAILED] *)
Definition ERROR_MEMORY_MAP_FAILED : Z := -5.
(** [vk::ErrorCode::FULL_SCREEN_EXCLUSIVE_MODE_LOST_EXT] *)
Definition ERROR_FULL_SCREEN_EXCLUSIVE_MODE_LOST_EXT : Z := -1000255000.
(** [vk::ErrorCode::SURFACE_LOST_KHR] *)
Definition ERROR_SURFACE_LOST_KHR : Z := -1000000000.

(** [vk::SuccessCode]s a call may return next to its value. *)
Inductive SuccessCode := SUCCESS | SUBOPTIMAL_KHR.

(** A [VkResult<T>]: [Ok (value, success code)] or [Err code]. *)
Definition VkResult (A : Type) : Type := (A * SuccessCode) + Z.

(* ================================================================== *)
(** ** Memory-type selection (shared_memory.rs and main.rs,
       [get_memory_type_index]) *)

Module Memory.

(** [vk::MemoryType] (the heap index plays no part in the selection). *)
Record MemoryType := { property_flags : N; heap_index : N }.

(** [vk::PhysicalDeviceMemoryProperties]: [memory_types] is the fixed
    array of [VK_MAX_MEMORY_TYPES = 32] entries, of which the first
    [memory_type_count] are reported by the device. *)
Record PhysicalDeviceMemoryProperties := {
  memory_type_count : nat;
  memory_types : list MemoryType
}.

(** [vk::MemoryRequirements]. *)
Record MemoryRequirements := { size : N; alignment : N; memory_type_bits : N }.

Definition default_memory_type : MemoryType :=
  {| property_flags := 0; heap_index := 0 |}.

(** [bitflags]' [contains]: every bit of [other] is set in [self]. *)
Definition contains (self other : N) : bool := N.eqb (N.land self other) other.

(** The closure passed to [find]:
    [(requirements.memory_type_bits & (1 << i)) != 0 &&
     memory.memory_types[i].property_flags.contains(properties)].
    [memory_type_count <= 32], so [1 << i] never overflows a [u32]. *)
Definition suitable_type (memory : PhysicalDeviceMemoryProperties)
    (properties : N) (requirements : MemoryRequirements) (i : nat) : bool :=
  let suitable := negb (N.eqb (N.land (memory_type_bits requirements)
                                      (N.shiftl 1 (N.of_nat i))) 0) in
  let memory_type := nth i (memory_types memory) default_memory_type in
  suitable && contains (property_flags memory_type) properties.

(** [(0..memory.memory_type_count).find(..).ok_or_else(..)]. *)
Definition get_memory_type_index (memory : PhysicalDeviceMemoryProperties)
    (properties : N) (requirements : MemoryRequirements) : nat + AppError :=
  match List.find (suitable_type memory properties requirements)
                  (List.seq 0 (memory_type_count memory)) with
  | Some i => inl i
  | None => inr FailedToFindSuitableMemoryType
  end.

End Memory.

(* ================================================================== *)
(** ** Mip levels (texture.rs, [Texture2D::load_from_file], line 70)

    [(width.max(height) as f32).log2().floor() as u32 + 1].

    The conversion [u32 as f32] rounds to the nearest float with a
    24-bit significand, ties to even; for a positive integer it yields an
    integer. [log2] of a power of two is exact. For other integers the model
    takes the exact [floor (log2 x)], which is the result of [log2f] followed
    by [floor] except for integers a few units below a power of two at
    [2^21] and above, where a correctly rounded [log2f] returns that power's
    exponent. *)

Module MipLevels.

(** Round a positive integer to the nearest value with a 24-bit
    significand, ties to even: the value of [x as f32]. *)
Definition u32_as_f32 (x : Z) : Z :=
  let e := Z.log2 x - 23 in
  if e <=? 0 then x
  else
    let q := Z.shiftr x e in
    let r := x - Z.shiftl q e in
    let half := Z.shiftl 1 (e - 1) in
    let q' := if r <? half then q
              else if half <? r then q + 1
              else if Z.even q then q else q + 1 in
    Z.shiftl q' e.

(** [f32::log2] followed by [floor] on an integer-valued float. *)
Definition log2_floor_f32 (x : Z) : Z := Z.log2 x.

Definition mip_levels (width height : Z) : Z :=
  log2_floor_f32 (u32_as_f32 (Z.max width height)) + 1.

End MipLevels.

(* ================================================================== *)
(** ** Mip-chain generation (shared_memory.rs, [generate_mipmaps]) *)

Module Mipmaps.

Inductive ImageLayout :=
  | UNDEFINED | TRANSFER_DST_OPTIMAL | TRANSFER_SRC_OPTIMAL
  | SHADER_READ_ONLY_OPTIMAL | READ_ONLY_OPTIMAL.

(** The commands [generate_mipmaps] records into its single-time command
    buffer: a layout barrier on one mip level, or a blit from the region
    [(0,0)..src_extent] of [src_level] to [(0,0)..dst_extent] of
    [dst_level]. *)
Inductive Command :=
  | Barrier (base_mip_level : Z) (old_layout new_layout : ImageLayout)
  | Blit (src_level : Z) (src_extent : Z * Z)
         (dst_level : Z) (dst_extent : Z * Z).

(** [if d > 1 { d / 2 } else { 1 }], as in the destination offsets. *)
Definition half_extent (d : Z) : Z := if 1 <? d then d / 2 else 1.

(** [if mip_width > 1 { mip_width /= 2; }] at the end of the loop body. *)
Definition shrink (d : Z) : Z := if 1 <? d then d / 2 else d.

(** The body of [for i in 1..mip_levels], run for [i = i0, i0+1, ...],
    [fuel] times, threading [mip_width] and [mip_height]. *)
Fixpoint mip_loop (i : Z) (fuel : nat) (mip_width mip_height : Z)
    : list Command :=
  match fuel with
  | O => []
  | S fuel' =>
      [ Barrier (i - 1) TRANSFER_DST_OPTIMAL TRANSFER_SRC_OPTIMAL;
        Blit (i - 1) (mip_width, mip_height)
             i (half_extent mip_width, half_extent mip_height);
        Barrier (i - 1) TRANSFER_SRC_OPTIMAL SHADER_READ_ONLY_OPTIMAL ]
      ++ mip_loop (i + 1) fuel' (shrink mip_width) (shrink mip_height)
  end.

(** [generate_mipmaps]: the linear-filter check on the format's optimal
    tiling features, then the loop, then the barrier of the last level. *)
Definition generate_mipmaps (supports_linear_filter : bool)
    (width height mip_levels : Z) : list Command + AppError :=
  if negb supports_linear_filter then inr FormatDoesNotSupportLinearBlitting
  else
    inl (mip_loop 1 (Z.to_nat (mip_levels - 1)) width height
         ++ [Barrier (mip_levels - 1) TRANSFER_DST_OPTIMAL
                     SHADER_READ_ONLY_OPTIMAL]).

(** The blits of a command list, in order. *)
Definition blits (cmds : list Command) : list (Z * (Z * Z) * Z * (Z * Z)) :=
  omap (fun c => match c with
                 | Blit s se d de => Some (s, se, d, de)
                 | _ => None
                 end) cmds.

(** Extent of level [k] of the chain per the spec's words: level 0 is
    [(W, H)], each further level halves each axis with floor division,
    clamped at 1. *)
Fixpoint level_extent (k : nat) (w h : Z) : Z * Z :=
  match k with
  | O => (w, h)
  | S k' => let '(pw, ph) := level_extent k' w h in
            (Z.max 1 (pw / 2), Z.max 1 (ph / 2))
  end.

End Mipmaps.

(* ================================================================== *)
(** ** Vertices and their deduplication (vertex.rs, mesh.rs) *)

Module Dedup.

(** An [f32] as its IEEE-754 bit pattern ([f32::to_bits]), in [0, 2^32). *)
Abbreviation f32 := Z.

Definition f32_is_nan (x : f32) : bool :=
  (Z.land (Z.shiftr x 23) 255 =? 255) && negb (Z.land x (2 ^ 23 - 1) =? 0).

Definition f32_is_zero (x : f32) : bool := Z.land x (2 ^ 31 - 1) =? 0.

(** [==] on [f32]: IEEE equality. NaN equals nothing, [+0.0 == -0.0],
    otherwise equal values have equal bit patterns. *)
Definition f32_eq (a b : f32) : bool :=
  if f32_is_nan a || f32_is_nan b then false
  else if f32_is_zero a && f32_is_zero b then true
  else a =? b.

(** [glm::Vec3] and [glm::Vec2]; their [==] is componentwise [f32] [==]. *)
Record Vec3 := vec3 { x : f32; y : f32; z : f32 }.
Record Vec2 := vec2 { u : f32; v : f32 }.

Definition vec3_eq (a b : Vec3) : bool :=
  f32_eq (x a) (x b) && f32_eq (y a) (y b) && f32_eq (z a) (z b).
Definition vec2_eq (a b : Vec2) : bool := f32_eq (u a) (u b) && f32_eq (v a) (v b).

Record Vertex := {
  pos : Vec3;
  color : Vec3;
  tex_coord : Vec2;
  normal : Vec3
}.

(** [impl PartialEq for Vertex]. *)
Definition vertex_eq (a b : Vertex) : bool :=
  vec3_eq (pos a) (pos b) && vec3_eq (color a) (color b) &&
  vec2_eq (tex_coord a) (tex_coord b) && vec3_eq (normal a) (normal b).

(** The words fed to the hasher by [impl Hash for Vertex]: the [to_bits]
    of the eleven components, in order. *)
Definition hash_words (a : Vertex) : list Z :=
  [x (pos a); y (pos a); z (pos a);
   x (color a); y (color a); z (color a);
   u (tex_coord a); v (tex_coord a);
   x (normal a); y (normal a); z (normal a)].

(** [HashMap<Vertex, usize>] as the list of its entries, newest first.
    [unique_vertices_get] is the lookup of a table whose 7-bit hash tags
    never collide for different [hash_words]: it returns the value of a
    stored key with the same [hash_words] that compares [==] to the query.
    [hashmap_get_ok] below states what hashbrown guarantees of any
    lookup. *)
Definition unique_vertices_get (unique : list (Vertex * nat)) (k : Vertex)
    : option nat :=
  snd <$> List.find (fun e => bool_decide (hash_words (fst e) = hash_words k)
                              && vertex_eq (fst e) k) unique.

(** The body of the loop over the indices in [Mesh::from_filepath], run
    on the stream of vertices it builds (the building itself does float
    arithmetic, [1.0 - v], and is not modelled). *)
Fixpoint dedup_loop (unique : list (Vertex * nat)) (vertices : list Vertex)
    (indices : list nat) (stream : list Vertex) : list Vertex * list nat :=
  match stream with
  | [] => (vertices, indices)
  | vertex :: rest =>
      match unique_vertices_get unique vertex with
      | Some index => dedup_loop unique vertices (indices ++ [index]) rest
      | None =>
          let index := length vertices in
          dedup_loop ((vertex, index) :: unique) (vertices ++ [vertex])
                     (indices ++ [index]) rest
      end
  end.

Definition dedup (stream : list Vertex) : list Vertex * list nat :=
  dedup_loop [] [] [] stream.

(** What hashbrown's [HashMap::get] guarantees, its table being a
    function of the insertions (the list of entries) and of the map's
    hasher. It probes the slots whose 7-bit tag matches the query's hash
    and compares the stored key with [==] ([k.equivalent(&x.0)]), so:
    a result is the value of a stored key that compares [==] to the query
    (whatever its hash); and a stored key with the query's very
    [hash_words] (hence the same hash, tag and probe sequence) that
    compares [==] to it is never missed. *)
Definition hashmap_get_ok (get : list (Vertex * nat) -> Vertex -> option nat)
    : Prop :=
  forall unique k,
    (forall i, get unique k = Some i ->
       exists e, e ∈ unique /\ vertex_eq k (fst e) = true /\ snd e = i) /\
    (get unique k = None ->
       forall e, e ∈ unique -> hash_words (fst e) = hash_words k ->
       vertex_eq k (fst e) = false).

(** The loop of [Mesh::from_filepath] over any such lookup. *)
Fixpoint dedup_loop_by (get : list (Vertex * nat) -> Vertex -> option nat)
    (unique : list (Vertex * nat)) (vertices : list Vertex)
    (indices : list nat) (stream : list Vertex) : list Vertex * list nat :=
  match stream with
  | [] => (vertices, indices)
  | vertex :: rest =>
      match get unique vertex with
      | Some index => dedup_loop_by get unique vertices (indices ++ [index]) rest
      | None =>
          let index := length vertices in
          dedup_loop_by get ((vertex, index) :: unique) (vertices ++ [vertex])
                        (indices ++ [index]) rest
      end
  end.

Definition dedup_by (get : list (Vertex * nat) -> Vertex -> option nat)
    (stream : list Vertex) : list Vertex * list nat :=
  dedup_loop_by get [] [] [] stream.

(** The lookup of a table where the probe reaches, with a matching tag,
    every stored key: it returns the newest stored key that compares [==]
    to the query. *)
Definition merging_get (unique : list (Vertex * nat)) (k : Vertex) : option nat :=
  snd <$> List.find (fun e => vertex_eq k (fst e)) unique.

(** No component is [+0.0] or [-0.0], the only values [==] identifies
    with a different bit pattern. *)
Definition zero_free (w : Vertex) : bool :=
  forallb (fun c => negb (f32_is_zero c)) (hash_words w).

(** The quiet NaN [f32::NAN] ([0x7FC00000]), as [str::parse::<f32>]
    returns it for the text ["nan"] of an OBJ vertex line. *)
Definition NAN : f32 := 2143289344.
Definition ZERO : f32 := 0.
(** [1.0f32] *)
Definition ONE : f32 := 1065353216.

(** A vertex of an OBJ file whose position reads [v nan 0 0], with the
    defaults the loader substitutes for missing colors and normals. *)
Definition nan_vertex : Vertex :=
  {| pos := vec3 NAN ZERO ZERO; color := vec3 ONE ONE ONE;
     tex_coord := vec2 ZERO ONE; normal := vec3 ZERO ZERO ONE |}.

End Dedup.

(* ================================================================== *)
(** ** The maintained texture upload path (texture.rs,
       [Texture2D::load_from_file]) *)

Module TextureUpload.

Import Mipmaps.

(** [vk::BufferImageCopy], as built in the loop over the mip levels. *)
Record BufferImageCopy := {
  mip_level : Z; image_extent : Z * Z; buffer_offset : Z
}.

(** Commands recorded into [copy_cmd]. *)
Inductive UploadCommand :=
  | CmdPipelineBarrier (image : handle) (old_layout new_layout : ImageLayout)
                       (base_mip_level level_count : Z)
  | CmdCopyBufferToImage (buffer image : handle) (layout : ImageLayout)
                         (regions : list BufferImageCopy)
  | CmdBlitImage (src_image dst_image : handle).

(** What the function leaves behind: the contents written into the mapped
    staging memory, the commands recorded, submitted and waited for, the
    copy regions it builds, and the layout the [Texture] advertises. *)
Record Upload := {
  staging_contents : list Z;
  recorded : list UploadCommand;
  buffer_copy_regions : list BufferImageCopy;
  texture_image_layout : ImageLayout;
  texture_mip_levels : Z
}.

(** [for i in 0..mip_levels { ...; offset += size; }]. *)
Fixpoint copy_regions (i : Z) (fuel : nat) (width height offset size : Z)
    : list BufferImageCopy :=
  match fuel with
  | O => []
  | S fuel' =>
      {| mip_level := i; image_extent := (width, height); buffer_offset := offset |}
      :: copy_regions (i + 1) fuel' width height (offset + size) size
  end.

(** [load_from_file] after decoding: [pixels] are the decoded bytes,
    [staging_buffer] and [image] the handles [create_buffer] and
    [create_image] return, and [buffer_memory_requirements] /
    [image_memory_requirements] what the driver answers to
    [get_buffer_memory_requirements] / [get_image_memory_requirements] for
    a handle. The staging lookup asks for [HOST_VISIBLE | HOST_COHERENT]
    (2 | 4) under the staging buffer's [memory_type_bits], the image lookup
    for [DEVICE_LOCAL] (1) under the created image's [memory_type_bits]. *)
Definition load_from_file (memory : Memory.PhysicalDeviceMemoryProperties)
    (buffer_memory_requirements image_memory_requirements :
       handle -> Memory.MemoryRequirements)
    (pixels : list Z) (width height : Z) (staging_buffer image : handle)
    (image_layout : option ImageLayout) : Upload + AppError :=
  let size := Z.of_nat (length pixels) in
  let mip_levels := MipLevels.mip_levels width height in
  (* let mut mem_reqs = device.get_buffer_memory_requirements(staging_buffer) *)
  let mem_reqs := buffer_memory_requirements staging_buffer in
  match Memory.get_memory_type_index memory (2 + 4) mem_reqs with
  | inr e => inr e
  | inl _ =>
    (* memcpy(pixels.as_ptr(), mem_dst.cast(), pixels.len()) *)
    let staging := pixels in
    let regions := copy_regions 0 (Z.to_nat mip_levels) width height 0 size in
    (* mem_reqs = device.get_image_memory_requirements(image) *)
    let mem_reqs := image_memory_requirements image in
    match Memory.get_memory_type_index memory 1 mem_reqs with
    | inr e => inr e
    | inl _ =>
      let cmds := [CmdPipelineBarrier image UNDEFINED TRANSFER_DST_OPTIMAL
                                      0 mip_levels] in
      inl {| staging_contents := staging;
             recorded := cmds;
             buffer_copy_regions := regions;
             texture_image_layout := default READ_ONLY_OPTIMAL image_layout;
             texture_mip_levels := mip_levels |}
    end
  end.

Definition is_buffer_to_image_copy (c : UploadCommand) : bool :=
  match c with CmdCopyBufferToImage _ _ _ _ => true | _ => false end.

(** A discrete GPU: memory type 0 is [DEVICE_LOCAL], memory type 1 is
    [HOST_VISIBLE | HOST_COHERENT]. *)
Definition discrete_gpu_memory : Memory.PhysicalDeviceMemoryProperties :=
  {| Memory.memory_type_count := 2;
     Memory.memory_types := [{| Memory.property_flags := 1; Memory.heap_index := 0 |};
                             {| Memory.property_flags := 6; Memory.heap_index := 1 |}] |}.

(** Its answers: a transfer-source buffer may live in either type, an
    optimal-tiling image only in the device-local one. *)
Definition staging_buffer_reqs (size : N) : Memory.MemoryRequirements :=
  {| Memory.size := size; Memory.alignment := 4; Memory.memory_type_bits := 3 |}.
Definition optimal_image_reqs (size : N) : Memory.MemoryRequirements :=
  {| Memory.size := size; Memory.alignment := 1024; Memory.memory_type_bits := 1 |}.

End TextureUpload.

(* ================================================================== *)
(** ** Device objects and the application state (main.rs) *)

Module AppModel.

(** The driver's side of the objects the application creates: the handles
    currently alive, the next handle the driver hands out, and the contents
    of each allocated device-memory object. *)
Record Device := {
  live : list handle;
  next_handle : handle;
  memory : gmap handle (list Z)
}.

(** [vkCreate*] / [vkAllocate*]: a fresh non-null handle. *)
Definition create_object (dev : Device) : handle * Device :=
  (next_handle dev,
   {| live := next_handle dev :: live dev;
      next_handle := N.succ (next_handle dev);
      memory := memory dev |}).

Fixpoint create_objects (n : nat) (dev : Device) : list handle * Device :=
  match n with
  | O => ([], dev)
  | S n' => let '(h, dev) := create_object dev in
            let '(hs, dev) := create_objects n' dev in
            (h :: hs, dev)
  end.

(** [vkAllocateMemory] of [size] bytes (contents unspecified, taken as 0). *)
Definition allocate_memory (size : nat) (dev : Device) : handle * Device :=
  let '(h, dev) := create_object dev in
  (h, {| live := live dev; next_handle := next_handle dev;
         memory := <[h := replicate size 0]> (memory dev) |}).

(** [vkDestroy*] / [vkFree*] of several objects. *)
Definition destroy_objects (hs : list handle) (dev : Device) : Device :=
  {| live := filter (fun h => h ∉ hs) (live dev);
     next_handle := next_handle dev;
     memory := foldr delete (memory dev) hs |}.

(** [size_of::<UniformBufferObject>()]: [model], [view] and [proj], three
    [glm::Mat4] of [f32]. *)
Definition UBO_SIZE : nat := 192.

Definition MAX_FRAMES_IN_FLIGHT : nat := 2.

(** [Texture]: the objects it owns ([image_layout], the sizes and the
    descriptor are left out). *)
Record Texture := {
  image : handle;
  image_view : handle;
  device_memory : handle;
  sampler : option handle
}.

(** [Mesh]: its device-local buffers and their memories (the vertex and
    index lists are left out). *)
Record Mesh := {
  vertex_buffer : handle;
  vertex_buffer_memory : handle;
  index_buffer : handle;
  index_buffer_memory : handle
}.

(** [AppData] (the instance-level objects, the queues and the formats are
    left out). *)
Record AppData := {
  swapchain_extent : Z * Z;
  swapchain : handle;
  swapchain_images : list handle;
  swapchain_image_views : list handle;
  render_pass : handle;
  descriptor_set_layout : handle;
  pipeline_layout : handle;
  pipeline : handle;
  framebuffers : list handle;
  command_pool : handle;
  command_buffers : list handle;
  image_available_semaphores : list handle;
  render_finished_semaphores : list handle;
  in_flight_fences : list handle;
  images_in_flight : list handle;
  uniform_buffers : list handle;
  uniform_buffers_memory : list handle;
  descriptor_pool : handle;
  descriptor_sets : list handle;
  textures : list Texture;
  texture_sampler : handle;
  depth_image : handle;
  depth_image_memory : handle;
  depth_image_view : handle;
  mesh : Mesh;
  color_image : handle;
  color_image_memory : handle;
  color_image_view : handle
}.

(** [App] (the entry, the instance, the device dispatch table and the start
    instant are left out). *)
Record App := { data : AppData; frame : nat; resized : bool }.

(** [Vec::resize(new_len, value)]: truncate, or extend with [value]. *)
Definition resize {A} (new_len : nat) (value : A) (l : list A) : list A :=
  take new_len l ++ replicate (new_len - length l) value.

(** The steps of [recreate_swapchain] after [destroy_swapchain], each
    creating its objects in the device. *)
Definition create_swapchain (image_count : nat) (dev : Device)
    : (handle * list handle) * Device :=
  let '(swapchain, dev) := create_object dev in
  let '(images, dev) := create_objects image_count dev in
  ((swapchain, images), dev).

Definition create_swapchain_image_views (images : list handle) (dev : Device)
    : list handle * Device :=
  create_objects (length images) dev.

(** [create_color_objects] and [create_depth_objects]: image, memory, view. *)
Definition create_attachment_objects (dev : Device)
    : (handle * handle * handle) * Device :=
  let '(image, dev) := create_object dev in
  let '(image_memory, dev) := allocate_memory 0 dev in
  let '(view, dev) := create_object dev in
  ((image, image_memory, view), dev).

(** [create_uniform_buffers]: [clear], then one [create_buffer] (buffer,
    then its memory) per swapchain image. *)
Fixpoint create_uniform_buffers (n : nat) (dev : Device)
    : (list handle * list handle) * Device :=
  match n with
  | O => (([], []), dev)
  | S n' =>
      let '(buffer, dev) := create_object dev in
      let '(buffer_memory, dev) := allocate_memory UBO_SIZE dev in
      let '((buffers, memories), dev) := create_uniform_buffers n' dev in
      ((buffer :: buffers, buffer_memory :: memories), dev)
  end.

(** The objects [destroy_swapchain] destroys (swapchain images and
    descriptor sets go with the swapchain and the pool). *)
Definition swapchain_handles (data : AppData) : list handle :=
  [color_image_view data; color_image_memory data; color_image data;
   depth_image_view data; depth_image_memory data; depth_image data;
   descriptor_pool data] ++ uniform_buffers data ++ uniform_buffers_memory data
  ++ framebuffers data ++ command_buffers data
  ++ [pipeline data; pipeline_layout data; render_pass data]
  ++ swapchain_image_views data ++ [swapchain data]
  ++ swapchain_images data ++ descriptor_sets data.

Definition destroy_swapchain (data : AppData) (dev : Device) : Device :=
  destroy_objects (swapchain_handles data) dev.

(** [App::recreate_swapchain], after [device_wait_idle] has returned; the
    new swapchain has [image_count] images of extent [extent]. *)
Definition recreate_swapchain (image_count : nat) (extent : Z * Z)
    (data : AppData) (dev : Device) : AppData * Device :=
  let dev := destroy_swapchain data dev in
  let '((swapchain, images), dev) := create_swapchain image_count dev in
  let '(views, dev) := create_swapchain_image_views images dev in
  let '(render_pass, dev) := create_object dev in
  let '(pipeline_layout, dev) := create_object dev in
  let '(pipeline, dev) := create_object dev in
  let '((color_image, color_image_memory, color_image_view), dev) :=
    create_attachment_objects dev in
  let '((depth_image, depth_image_memory, depth_image_view), dev) :=
    create_attachment_objects dev in
  let '(framebuffers, dev) := create_objects (length images) dev in
  let '((uniform_buffers, uniform_buffers_memory), dev) :=
    create_uniform_buffers (length images) dev in
  let '(descriptor_pool, dev) := create_object dev in
  let '(descriptor_sets, dev) := create_objects (length images) dev in
  let '(command_buffers, dev) := create_objects (length images) dev in
  ({| swapchain_extent := extent;
      swapchain := swapchain;
      swapchain_images := images;
      swapchain_image_views := views;
      render_pass := render_pass;
      descriptor_set_layout := descriptor_set_layout data;
      pipeline_layout := pipeline_layout;
      pipeline := pipeline;
      framebuffers := framebuffers;
      command_pool := command_pool data;
      command_buffers := command_buffers;
      image_available_semaphores := image_available_semaphores data;
      render_finished_semaphores := render_finished_semaphores data;
      in_flight_fences := in_flight_fences data;
      (* self.data.images_in_flight.resize(swapchain_images.len(), null) *)
      images_in_flight :=
        resize (length images) null_handle (images_in_flight data);
      uniform_buffers := uniform_buffers;
      uniform_buffers_memory := uniform_buffers_memory;
      descriptor_pool := descriptor_pool;
      descriptor_sets := descriptor_sets;
      textures := textures data;
      texture_sampler := texture_sampler data;
      depth_image := depth_image;
      depth_image_memory := depth_image_memory;
      depth_image_view := depth_image_view;
      mesh := mesh data;
      color_image := color_image;
      color_image_memory := color_image_memory;
      color_image_view := color_image_view |}, dev).

(** [create_sync_objects]: [MAX_FRAMES_IN_FLIGHT] times push an
    image-available semaphore, a render-finished semaphore and a fence
    (created signaled), then [images_in_flight] = one null per image. *)
Fixpoint create_sync_loop (n : nat) (ias rfs iff : list handle) (dev : Device)
    : (list handle * list handle * list handle) * Device :=
  match n with
  | O => ((ias, rfs, iff), dev)
  | S n' =>
      let '(ia, dev) := create_object dev in
      let '(rf, dev) := create_object dev in
      let '(f, dev) := create_object dev in
      create_sync_loop n' (ias ++ [ia]) (rfs ++ [rf]) (iff ++ [f]) dev
  end.

Definition set_sync (data : AppData) (ias rfs iff iif : list handle) : AppData :=
  {| swapchain_extent := swapchain_extent data;
     swapchain := swapchain data;
     swapchain_images := swapchain_images data;
     swapchain_image_views := swapchain_image_views data;
     render_pass := render_pass data;
     descriptor_set_layout := descriptor_set_layout data;
     pipeline_layout := pipeline_layout data;
     pipeline := pipeline data;
     framebuffers := framebuffers data;
     command_pool := command_pool data;
     command_buffers := command_buffers data;
     image_available_semaphores := ias;
     render_finished_semaphores := rfs;
     in_flight_fences := iff;
     images_in_flight := iif;
     uniform_buffers := uniform_buffers data;
     uniform_buffers_memory := uniform_buffers_memory data;
     descriptor_pool := descriptor_pool data;
     descriptor_sets := descriptor_sets data;
     textures := textures data;
     texture_sampler := texture_sampler data;
     depth_image := depth_image data;
     depth_image_memory := depth_image_memory data;
     depth_image_view := depth_image_view data;
     mesh := mesh data;
     color_image := color_image data;
     color_image_memory := color_image_memory data;
     color_image_view := color_image_view data |}.

Definition create_sync_objects (data : AppData) (dev : Device) : AppData * Device :=
  let '((ias, rfs, iff), dev) :=
    create_sync_loop MAX_FRAMES_IN_FLIGHT (image_available_semaphores data)
      (render_finished_semaphores data) (in_flight_fences data) dev in
  (set_sync data ias rfs iff (map (fun _ => null_handle) (swapchain_images data)),
   dev).

(** The objects of [Texture2D::load_from_file] when it succeeds: the copy
    command buffer, the staging buffer and its memory, the image and its
    memory, and a fence; then the fence, the command buffer and the staging
    pair are released; then the sampler and the image view are created.
    The sizes of the allocations are not tracked. *)
Definition texture_load_from_file (dev : Device) : Texture * Device :=
  let '(copy_cmd, dev) := create_object dev in
  let '(staging_buffer, dev) := create_object dev in
  let '(staging_mem, dev) := allocate_memory 0 dev in
  let '(image, dev) := create_object dev in
  let '(device_memory, dev) := allocate_memory 0 dev in
  let '(fence, dev) := create_object dev in
  let dev := destroy_objects [fence; copy_cmd; staging_mem; staging_buffer] dev in
  let '(sampler, dev) := create_object dev in
  let '(image_view, dev) := create_object dev in
  ({| image := image; image_view := image_view; device_memory := device_memory;
      sampler := Some sampler |}, dev).

(** [create_buffer] (shared_memory.rs): the buffer, then its memory. *)
Definition create_buffer (dev : Device) : (handle * handle) * Device :=
  let '(buffer, dev) := create_object dev in
  let '(buffer_memory, dev) := allocate_memory 0 dev in
  ((buffer, buffer_memory), dev).

(** [Mesh::create_vertex_buffer] and [Mesh::create_index_buffer]: a
    host-visible staging [create_buffer], the device-local [create_buffer],
    [copy_buffer] (its one-time command buffer, from shared_commands.rs,
    is not modelled), then the staging buffer and its memory are
    released. *)
Definition create_device_local_buffer (dev : Device) : (handle * handle) * Device :=
  let '((staging_buffer, staging_buffer_memory), dev) := create_buffer dev in
  let '((buffer, buffer_memory), dev) := create_buffer dev in
  let dev := destroy_objects [staging_buffer; staging_buffer_memory] dev in
  ((buffer, buffer_memory), dev).

(** The objects of [Mesh::from_filepath]: the vertex buffer, then the
    index buffer. *)
Definition mesh_from_filepath (dev : Device) : Mesh * Device :=
  let '((vertex_buffer, vertex_buffer_memory), dev) :=
    create_device_local_buffer dev in
  let '((index_buffer, index_buffer_memory), dev) :=
    create_device_local_buffer dev in
  ({| vertex_buffer := vertex_buffer; vertex_buffer_memory := vertex_buffer_memory;
      index_buffer := index_buffer; index_buffer_memory := index_buffer_memory |},
   dev).

(** [App::create], from [AppData::default()] on a fresh device: the
    swapchain comes with [image_count] images of extent [extent]. *)
Definition initial_device : Device :=
  {| live := []; next_handle := 1%N; memory := ∅ |}.

Definition create_app (image_count : nat) (extent : Z * Z) : App * Device :=
  let dev := initial_device in
  let '((swapchain, images), dev) := create_swapchain image_count dev in
  let '(views, dev) := create_swapchain_image_views images dev in
  let '(render_pass, dev) := create_object dev in
  let '(descriptor_set_layout, dev) := create_object dev in
  let '(pipeline_layout, dev) := create_object dev in
  let '(pipeline, dev) := create_object dev in
  let '(command_pool, dev) := create_object dev in
  let '((color_image, color_image_memory, color_image_view), dev) :=
    create_attachment_objects dev in
  let '((depth_image, depth_image_memory, depth_image_view), dev) :=
    create_attachment_objects dev in
  let '(framebuffers, dev) := create_objects (length images) dev in
  let '(texture, dev) := texture_load_from_file dev in
  let '(texture_sampler, dev) := create_object dev in
  let '(mesh, dev) := mesh_from_filepath dev in
  let '((uniform_buffers, uniform_buffers_memory), dev) :=
    create_uniform_buffers (length images) dev in
  let '(descriptor_pool, dev) := create_object dev in
  let '(descriptor_sets, dev) := create_objects (length images) dev in
  let '(command_buffers, dev) := create_objects (length images) dev in
  let data :=
    {| swapchain_extent := extent;
       swapchain := swapchain;
       swapchain_images := images;
       swapchain_image_views := views;
       render_pass := render_pass;
       descriptor_set_layout := descriptor_set_layout;
       pipeline_layout := pipeline_layout;
       pipeline := pipeline;
       framebuffers := framebuffers;
       command_pool := command_pool;
       command_buffers := command_buffers;
       image_available_semaphores := [];
       render_finished_semaphores := [];
       in_flight_fences := [];
       images_in_flight := [];
       uniform_buffers := uniform_buffers;
       uniform_buffers_memory := uniform_buffers_memory;
       descriptor_pool := descriptor_pool;
       descriptor_sets := descriptor_sets;
       textures := [texture];
       texture_sampler := texture_sampler;
       depth_image := depth_image;
       depth_image_memory := depth_image_memory;
       depth_image_view := depth_image_view;
       mesh := mesh;
       color_image := color_image;
       color_image_memory := color_image_memory;
       color_image_view := color_image_view |} in
  let '(data, dev) := create_sync_objects data dev in
  ({| data := data; frame := 0; resized := false |}, dev).

(** [Texture::destroy]: the view, the image, the sampler when there is
    one, the memory. *)
Definition texture_handles (t : Texture) : list handle :=
  [image_view t; image t]
  ++ match sampler t with Some s => [s] | None => [] end
  ++ [device_memory t].

(** [Mesh::destroy]. *)
Definition mesh_handles (m : Mesh) : list handle :=
  [vertex_buffer m; vertex_buffer_memory m; index_buffer m; index_buffer_memory m].

(** [App::destroy] (the device, the surface, the messenger and the
    instance, destroyed last, are left out). *)
Definition destroy (data : AppData) (dev : Device) : Device :=
  let dev := destroy_swapchain data dev in
  destroy_objects
    ([texture_sampler data] ++ concat (map texture_handles (textures data))
     ++ [descriptor_set_layout data] ++ mesh_handles (mesh data)
     ++ in_flight_fences data ++ render_finished_semaphores data
     ++ image_available_semaphores data ++ [command_pool data]) dev.

(** [App::update_uniform_buffer(&self, image_index)]: [ubo] is the byte
    image of the [UniformBufferObject] built from the elapsed time;
    [uniform_buffers_memory[image_index]] panics out of range, [map_memory]
    fails on memory that is not allocated, and the [memcpy] writes the
    object at offset 0 of the mapped range. *)
Definition update_uniform_buffer (ubo : list Z) (image_index : nat)
    (app : App) (dev : Device) : (App * Device) + AppError :=
  match uniform_buffers_memory (data app) !! image_index with
  | None => inr IndexOutOfBoundsPanic
  | Some m =>
      match memory dev !! m with
      | None => inr (VkError ERROR_MEMORY_MAP_FAILED)
      | Some old =>
          inl (app, {| live := live dev; next_handle := next_handle dev;
                       memory := <[m := ubo ++ drop UBO_SIZE old]> (memory dev) |})
      end
  end.

(** [self.frame = (self.frame + 1) % MAX_FRAMES_IN_FLIGHT]. *)
Definition advance_frame (app : App) : App :=
  {| data := data app; frame := (frame app + 1) mod MAX_FRAMES_IN_FLIGHT;
     resized := resized app |}.

Definition set_resized (app : App) (b : bool) : App :=
  {| data := data app; frame := frame app; resized := b |}.

Definition set_data (app : App) (d : AppData) : App :=
  {| data := d; frame := frame app; resized := resized app |}.

(** [recreate_swapchain] on the whole [App]. *)
Definition recreate_app (image_count : nat) (extent : Z * Z) (app : App)
    (dev : Device) : App * Device :=
  let '(d, dev) := recreate_swapchain image_count extent (data app) dev in
  (set_data app d, dev).

(** [result == Ok(SUBOPTIMAL_KHR) || result == Err(OUT_OF_DATE_KHR)]. *)
Definition present_changed (result : VkResult unit) : bool :=
  match result with
  | inl (_, SUBOPTIMAL_KHR) => true
  | inl (_, SUCCESS) => false
  | inr e => e =? ERROR_OUT_OF_DATE_KHR
  end.

(** The end of [App::render], from [queue_present_khr]'s [result] on;
    [recreate] is [self.recreate_swapchain(window)] with its own
    [Result]. *)
Definition render_present_tail
    (recreate : App -> Device -> (App * Device) + AppError)
    (result : VkResult unit) (app : App) (dev : Device)
    : (App * Device) + AppError :=
  if resized app || present_changed result then
    match recreate (set_resized app false) dev with
    | inr e => inr e
    | inl (app', dev') => inl (advance_frame app', dev')
    end
  else
    match result with
    | inr e => inr (VkError e)
    | inl _ => inl (advance_frame app, dev)
    end.

End AppModel.

(* ================================================================== *)
(** ** The frame loop ([App::render] driven by the event loop) and the GPU

    The CPU runs [App::render] one step at a time; [pc] says where it is.
    The GPU completes pending submissions in any order. A fence is
    unsignaled exactly while a submission carrying it is pending: fences are
    created signaled, and [render] resets a fence right before the
    submission that signals it (the two are one step here). A blocking wait
    is a step enabled only once the awaited fence is signaled;
    [device_wait_idle] is enabled once nothing is pending. A fatal error
    ends the loop: no step leaves such a state. *)

Module FrameLoop.

Import AppModel.

Inductive PC :=
  | AtWaitFence                (* line 154 *)
  | AtAcquire                  (* line 156 *)
  | AtWaitImage (i : nat)      (* line 169 *)
  | AtSubmit (i : nat)         (* lines 177-192 *)
  | AtPresent (i : nat)        (* line 201 *)
  | AtRecreate (advance : bool). (* recreate_swapchain, lines 165 and 206 *)

Record LoopState := {
  app : App;
  dev : Device;
  pending : list (handle * nat);   (* (fence, swapchain image index) *)
  pc : PC
}.

Definition fence_signaled (pending : list (handle * nat)) (f : handle) : bool :=
  forallb (fun p => negb (N.eqb (fst p) f)) pending.

(** [self.data.in_flight_fences[self.frame]] *)
Definition current_fence (a : App) : handle :=
  nth (frame a) (in_flight_fences (data a)) null_handle.

(** The guard of line 169: the entry is null or its fence is signaled
    (out of range the indexing panics). *)
Definition image_ready (pending : list (handle * nat)) (iif : list handle)
    (i : nat) : bool :=
  match iif !! i with
  | Some g => N.eqb g null_handle || fence_signaled pending g
  | None => false
  end.

Definition set_images_in_flight (a : App) (iif : list handle) : App :=
  let d := data a in
  set_data a (set_sync d (image_available_semaphores d)
                (render_finished_semaphores d) (in_flight_fences d) iif).

Definition mk (a : App) (d : Device) (p : list (handle * nat)) (c : PC)
    : LoopState :=
  {| app := a; dev := d; pending := p; pc := c |}.

Inductive cpu_step : LoopState -> LoopState -> Prop :=
  (* WindowEvent::Resized between two renders sets app.resized *)
  | step_resize_event a d p :
      cpu_step (mk a d p AtWaitFence) (mk (set_resized a true) d p AtWaitFence)
  | step_wait_fence a d p :
      fence_signaled p (current_fence a) = true ->
      cpu_step (mk a d p AtWaitFence) (mk a d p AtAcquire)
  | step_acquire a d p i :
      (i < length (swapchain_images (data a)))%nat ->
      cpu_step (mk a d p AtAcquire) (mk a d p (AtWaitImage i))
  | step_acquire_out_of_date a d p :
      cpu_step (mk a d p AtAcquire) (mk a d p (AtRecreate false))
  | step_wait_image a d p i :
      image_ready p (images_in_flight (data a)) i = true ->
      cpu_step (mk a d p (AtWaitImage i)) (mk a d p (AtSubmit i))
  | step_submit a d p i ubo a' d' :
      update_uniform_buffer ubo i
        (set_images_in_flight a
           (<[i := current_fence a]> (images_in_flight (data a)))) d
        = inl (a', d') ->
      cpu_step (mk a d p (AtSubmit i))
               (mk a' d' ((current_fence a, i) :: p) (AtPresent i))
  | step_present_recreate a d p i (r : VkResult unit) :
      resized a || present_changed r = true ->
      cpu_step (mk a d p (AtPresent i))
               (mk (set_resized a false) d p (AtRecreate true))
  | step_present_ok a d p i (r : VkResult unit) v :
      resized a || present_changed r = false -> r = inl v ->
      cpu_step (mk a d p (AtPresent i)) (mk (advance_frame a) d p AtWaitFence)
  | step_recreate a d adv n extent a' d' :
      (1 <= n)%nat ->
      recreate_app n extent a d = (a', d') ->
      cpu_step (mk a d [] (AtRecreate adv))
               (mk (if adv then advance_frame a' else a') d' [] AtWaitFence).

Inductive gpu_step : LoopState -> LoopState -> Prop :=
  | gpu_complete a d p1 f j p2 c :
      gpu_step (mk a d (p1 ++ (f, j) :: p2) c) (mk a d (p1 ++ p2) c).

Definition step (st st' : LoopState) : Prop := cpu_step st st' \/ gpu_step st st'.

Definition init_state (image_count : nat) (extent : Z * Z) : LoopState :=
  let '(a, d) := create_app image_count extent in mk a d [] AtWaitFence.

Inductive reachable (image_count : nat) (extent : Z * Z) : LoopState -> Prop :=
  | reach_init : reachable image_count extent (init_state image_count extent)
  | reach_step st st' :
      reachable image_count extent st -> step st st' ->
      reachable image_count extent st'.

End FrameLoop.

(* ================================================================== *)
(** ** Footprints of device allocation *)

Module Footprint.

Import AppModel.

(** Going from [dev] to [dev'] destroys nothing that existed before: the
    handle counter does not go back, live objects below the counter stay
    live (objects created and destroyed in between may come and go), and
    the handles [hs] are among those handed out in between. *)
Definition allocates (dev dev' : Device) (hs : list handle) : Prop :=
  (next_handle dev <= next_handle dev')%N /\
  (forall x, x ∈ live dev -> (x < next_handle dev)%N -> x ∈ live dev') /\
  (forall h, h ∈ hs -> (next_handle dev <= h < next_handle dev')%N).

(** The frame-slot objects of an [AppData]. *)
Definition sync_handles (d : AppData) : list handle :=
  image_available_semaphores d ++ render_finished_semaphores d
  ++ in_flight_fences d.

End Footprint.

(* ================================================================== *)
(** ** Properties stated in the words of the spec *)

Module SpecWords.

(** A memory type is acceptable: bit [i] of the requirement bitmask is
    set and its property flags are a superset of the requested flags. *)
Definition memory_type_ok (memory : Memory.PhysicalDeviceMemoryProperties)
    (properties : N) (requirements : Memory.MemoryRequirements) (i : nat)
    : Prop :=
  N.testbit (Memory.memory_type_bits requirements) (N.of_nat i) = true /\
  forall k, N.testbit properties k = true ->
    N.testbit (Memory.property_flags
                 (nth i (Memory.memory_types memory) Memory.default_memory_type))
              k = true.

End SpecWords.

(* ================================================================== *)
(** ** Swapchain, sample-count and format choices (main.rs) *)

Module Choices.

(** [vk::SurfaceFormatKHR]; [vk::Format::B8G8R8A8_SRGB] is 50 and
    [vk::ColorSpaceKHR::SRGB_NONLINEAR] is 0. *)
Record SurfaceFormat := { format : Z; color_space : Z }.

Definition B8G8R8A8_SRGB : Z := 50.
Definition SRGB_NONLINEAR : Z := 0.

(** [get_swapchain_surface_format]: the first [B8G8R8A8_SRGB] /
    [SRGB_NONLINEAR] entry, else [formats[0]]; [None] is the panic of
    that indexing on an empty slice. *)
Definition get_swapchain_surface_format (formats : list SurfaceFormat)
    : option SurfaceFormat :=
  match List.find (fun f => (format f =? B8G8R8A8_SRGB)
                            && (color_space f =? SRGB_NONLINEAR)) formats with
  | Some f => Some f
  | None => formats !! 0%nat
  end.

(** [vk::PresentModeKHR]: [IMMEDIATE] 0, [MAILBOX] 1, [FIFO] 2,
    [FIFO_RELAXED] 3. *)
Definition MAILBOX : Z := 1.
Definition FIFO : Z := 2.

(** [get_swapchain_present_mode]. *)
Definition get_swapchain_present_mode (present_modes : list Z) : Z :=
  match List.find (fun m => m =? MAILBOX) present_modes with
  | Some m => m
  | None => FIFO
  end.

(** [vk::Extent2D] and the fields of [vk::SurfaceCapabilitiesKHR] the
    code reads; all are [u32]. *)
Record Extent2D := { width : Z; height : Z }.

Record SurfaceCapabilities := {
  current_extent : Extent2D;
  min_image_extent : Extent2D;
  max_image_extent : Extent2D;
  min_image_count : Z;
  max_image_count : Z
}.

Definition U32_MAX : Z := 2 ^ 32 - 1.

(** [let clamp = |min: u32, max: u32, v: u32| min.max(max.min(v));] *)
Definition clamp (min max v : Z) : Z := Z.max min (Z.min max v).

(** [get_swapchain_extent]; [size] is [window.inner_size()]. *)
Definition get_swapchain_extent (size : Extent2D) (capabilities : SurfaceCapabilities)
    : Extent2D :=
  if negb (width (current_extent capabilities) =? U32_MAX) then
    current_extent capabilities
  else
    {| width := clamp (width (min_image_extent capabilities))
                      (width (max_image_extent capabilities)) (width size);
       height := clamp (height (min_image_extent capabilities))
                       (height (max_image_extent capabilities)) (height size) |}.

(** The image count of [create_swapchain]:
    [min_image_count + 1], lowered to [max_image_count] when that is
    non-zero and smaller. [None] is the overflow of the [u32] addition
    (a panic with overflow checks, as in a debug build). *)
Definition swapchain_image_count (capabilities : SurfaceCapabilities)
    : option Z :=
  let image_count := min_image_count capabilities + 1 in
  if U32_MAX <? image_count then None
  else if negb (max_image_count capabilities =? 0)
          && (max_image_count capabilities <? image_count)
  then Some (max_image_count capabilities)
  else Some image_count.

(** [vk::SampleCountFlags]: [_1] is bit 0, ..., [_64] is bit 6. *)
Definition sample_candidates : list N := [64; 32; 16; 8; 4; 2]%N.

(** [get_max_msaa_samples], from the two [framebuffer_*_sample_counts]
    limits of the device. *)
Definition get_max_msaa_samples (color_counts depth_counts : N) : N :=
  let counts := N.land color_counts depth_counts in
  match List.find (fun c => Memory.contains counts c) sample_candidates with
  | Some c => c
  | None => 1%N
  end.

(** [vk::ImageTiling]. *)
Inductive ImageTiling := OPTIMAL | LINEAR | DRM_FORMAT_MODIFIER_EXT.

(** The two feature fields of [vk::FormatProperties] the code reads. *)
Record FormatProperties := {
  linear_tiling_features : N;
  optimal_tiling_features : N
}.

(** [get_supported_format]; [properties] is
    [get_physical_device_format_properties] of the physical device, and
    [None] the "Failed to find supported format!" error. *)
Definition get_supported_format (properties : Z -> FormatProperties)
    (candidates : list Z) (tiling : ImageTiling) (features : N) : option Z :=
  List.find (fun f =>
    match tiling with
    | LINEAR => Memory.contains (linear_tiling_features (properties f)) features
    | OPTIMAL => Memory.contains (optimal_tiling_features (properties f)) features
    | _ => false
    end) candidates.

(** [vk::Format::D32_SFLOAT] 126, [D32_SFLOAT_S8_UINT] 130,
    [D24_UNORM_S8_UINT] 129; [DEPTH_STENCIL_ATTACHMENT] is bit 9. *)
Definition D32_SFLOAT : Z := 126.
Definition D32_SFLOAT_S8_UINT : Z := 130.
Definition D24_UNORM_S8_UINT : Z := 129.
Definition DEPTH_STENCIL_ATTACHMENT : N := 512.

(** [get_depth_format]. *)
Definition get_depth_format (properties : Z -> FormatProperties) : option Z :=
  get_supported_format properties [D32_SFLOAT; D32_SFLOAT_S8_UINT; D24_UNORM_S8_UINT]
    OPTIMAL DEPTH_STENCIL_ATTACHMENT.

End Choices.

(* ================================================================== *)
(** ** Objects the application owns *)

Module Ownership.

Import AppModel Footprint.

(** The objects [App::destroy] destroys: those of [destroy_swapchain],
    then the sampler, the textures, the descriptor-set layout, the mesh,
    the frame slots and the command pool. *)
Definition owned_handles (d : AppData) : list handle :=
  swapchain_handles d ++ [texture_sampler d]
  ++ concat (map texture_handles (textures d))
  ++ [descriptor_set_layout d] ++ mesh_handles (mesh d)
  ++ sync_handles d ++ [command_pool d].

(** Every allocated device memory belongs to a live memory object. *)
Definition mem_live (dev : Device) : Prop :=
  forall k, is_Some (memory dev !! k) -> k ∈ live dev.

(** Going from [dev] to [dev'] leaves no object alive outside [hs] that
    was not alive before, frees no memory below the handle counter, keeps
    memory tied to live objects and does not move the counter back. *)
Definition grows (dev dev' : Device) (hs : list handle) : Prop :=
  (forall x, x ∈ live dev' -> x ∈ live dev \/ x ∈ hs) /\
  (forall k, is_Some (memory dev !! k) -> (k < next_handle dev)%N ->
     is_Some (memory dev' !! k)) /\
  (mem_live dev -> mem_live dev') /\
  (next_handle dev <= next_handle dev')%N.

(** The state the frame loop keeps: every live object is one [App::destroy]
    destroys, memory is held only by live objects, and there is one
    allocated uniform-buffer memory per swapchain image. *)
Definition owns (d : AppData) (dev : Device) : Prop :=
  (forall x, x ∈ live dev -> x ∈ owned_handles d) /\
  mem_live dev /\
  length (uniform_buffers_memory d) = length (swapchain_images d) /\
  (forall m, m ∈ uniform_buffers_memory d -> is_Some (memory dev !! m)).

End Ownership.

(* ================================================================== *)
(** ** Layout transitions of one mip level *)

Module MipChain.

Import Mipmaps.

(** The [(old_layout, new_layout)] pairs of the barriers a command list
    records on mip level [k], in order. *)
Definition level_barriers (k : Z) (cmds : list Command)
    : list (ImageLayout * ImageLayout) :=
  omap (fun c => match c with
                 | Barrier l o n => if l =? k then Some (o, n) else None
                 | _ => None
                 end) cmds.

End MipChain.

(* ================================================================== *)
(** * Proofs *)

(** ** Memory-type selection *)

Lemma find_seq_some (p : nat -> bool) (n a i : nat) :
  List.find p (List.seq a n) = Some i <->
  (a <= i < a + n)%nat /\ p i = true /\
  (forall j, (a <= j < i)%nat -> p j = false).
Proof.
  revert a. induction n as [|n IH]; intros a; simpl.
  - split; [discriminate | lia].
  - destruct (p a) eqn:Ha.
    + split.
      * intros [= <-]. repeat split; [lia | lia | assumption | lia].
      * intros (Hr & Hp & Hlt). destruct (decide (i = a)) as [->|Hne]; [done|].
        rewrite Hlt in Ha; [discriminate | lia].
    + rewrite IH. split.
      * intros (Hr & Hp & Hlt). repeat split; [lia | lia | assumption |].
        intros j Hj. destruct (decide (j = a)) as [->|]; [done|]. apply Hlt; lia.
      * intros (Hr & Hp & Hlt). destruct (decide (i = a)) as [->|].
        { congruence. }
        repeat split; [lia | lia | assumption |]. intros j Hj. apply Hlt; lia.
Qed.

Lemma find_seq_none (p : nat -> bool) (n a : nat) :
  List.find p (List.seq a n) = None <->
  (forall i, (a <= i < a + n)%nat -> p i = false).
Proof.
  revert a. induction n as [|n IH]; intros a; simpl.
  - split; [intros _ i; lia | done].
  - destruct (p a) eqn:Ha.
    + split; [discriminate|]. intros H. rewrite H in Ha; [discriminate | lia].
    + rewrite IH. split.
      * intros H i Hi. destruct (decide (i = a)) as [->|]; [done|]. apply H; lia.
      * intros H i Hi. apply H; lia.
Qed.

Lemma land_shiftl_one_nonzero (b : N) (i : nat) :
  negb (N.eqb (N.land b (N.shiftl 1 (N.of_nat i))) 0) = N.testbit b (N.of_nat i).
Proof.
  rewrite N.shiftl_1_l.
  destruct (N.testbit b (N.of_nat i)) eqn:Hb.
  - destruct (N.eqb_spec (N.land b (2 ^ N.of_nat i)) 0) as [H|H]; [|done].
    exfalso. assert (Ht : N.testbit (N.land b (2 ^ N.of_nat i)) (N.of_nat i) = false)
      by (rewrite H; apply N.bits_0).
    rewrite N.land_spec, Hb, N.pow2_bits_true in Ht. discriminate.
  - replace (N.land b (2 ^ N.of_nat i)) with 0%N; [done|].
    symmetry. apply N.bits_inj_0. intros k.
    rewrite N.land_spec, N.pow2_bits_eqb.
    destruct (N.eqb_spec (N.of_nat i) k) as [<-|]; [by rewrite Hb|].
    apply andb_false_r.
Qed.

Lemma contains_superset (self other : N) :
  Memory.contains self other = true <->
  (forall k, N.testbit other k = true -> N.testbit self k = true).
Proof.
  unfold Memory.contains. rewrite N.eqb_eq. split.
  - intros H k Hk. rewrite <- H in Hk. rewrite N.land_spec in Hk.
    now apply andb_prop in Hk as [? _].
  - intros H. apply N.bits_inj. intros k. rewrite N.land_spec.
    destruct (N.testbit other k) eqn:Hk.
    + now rewrite (H k Hk).
    + apply andb_false_r.
Qed.

Lemma suitable_type_spec memory properties requirements i :
  Memory.suitable_type memory properties requirements i = true <->
  SpecWords.memory_type_ok memory properties requirements i.
Proof.
  unfold Memory.suitable_type, SpecWords.memory_type_ok.
  rewrite land_shiftl_one_nonzero, andb_true_iff, contains_superset. done.
Qed.

(** C4: memory-type selection returns the lowest index whose bit is set in
    the requirement bitmask and whose property flags are a superset of the
    requested flags; with no such index it fails with the "no suitable
    memory type" error. *)
Theorem get_memory_type_index_lowest
    (memory : Memory.PhysicalDeviceMemoryProperties) (properties : N)
    (requirements : Memory.MemoryRequirements) :
  (forall i : nat,
     Memory.get_memory_type_index memory properties requirements = inl i <->
     (i < Memory.memory_type_count memory)%nat /\
     SpecWords.memory_type_ok memory properties requirements i /\
     forall j, (j < i)%nat ->
       ~ SpecWords.memory_type_ok memory properties requirements j) /\
  (Memory.get_memory_type_index memory properties requirements
     = inr FailedToFindSuitableMemoryType <->
   forall i, (i < Memory.memory_type_count memory)%nat ->
     ~ SpecWords.memory_type_ok memory properties requirements i).
Proof.
  unfold Memory.get_memory_type_index. split.
  - intros i.
    destruct (List.find _ _) as [i'|] eqn:Hf.
    + split.
      * intros [= <-]. apply find_seq_some in Hf as (Hr & Hp & Hlt).
        split; [lia|]. split; [by apply suitable_type_spec|].
        intros j Hj Hok. apply suitable_type_spec in Hok.
        rewrite Hlt in Hok; [discriminate | lia].
      * intros (Hr & Hok & Hlt). f_equal.
        apply find_seq_some in Hf as (Hr' & Hp' & Hlt').
        apply suitable_type_spec in Hp'.
        destruct (Nat.lt_total i i') as [H|[H|H]]; [| done |].
        -- apply suitable_type_spec in Hok. rewrite Hlt' in Hok; [discriminate | lia].
        -- exfalso. by apply (Hlt i').
    + split; [discriminate|]. intros (Hr & Hok & _).
      apply find_seq_none with (i := i) in Hf; [| lia].
      apply suitable_type_spec in Hok. congruence.
  - destruct (List.find _ _) as [i'|] eqn:Hf.
    + split; [discriminate|]. intros H.
      apply find_seq_some in Hf as (Hr & Hp & _).
      exfalso. apply (H i'); [lia | by apply suitable_type_spec].
    + split; [intros _ | done]. intros i Hi Hok.
      apply find_seq_none with (i := i) in Hf; [| lia].
      apply suitable_type_spec in Hok. congruence.
Qed.

(** ** Mip levels *)

Lemma u32_as_f32_exact (x : Z) : 0 < x < 2 ^ 24 -> MipLevels.u32_as_f32 x = x.
Proof.
  intros Hx. unfold MipLevels.u32_as_f32.
  assert (Z.log2 x < 24) by (apply Z.log2_lt_pow2; lia).
  destruct (Z.leb_spec (Z.log2 x - 23) 0); [done | lia].
Qed.

(** C6 (as amended): for images of at most [2^20] pixels on their longer
    side the mip count is [floor(log2(max(width, height))) + 1]; in
    particular 1024x768 gives 11, 512x512 gives 10 and 1x1 gives 1. *)
Theorem mip_levels_floor_log2 (width height : Z) :
  1 <= width -> 1 <= height -> Z.max width height <= 2 ^ 20 ->
  MipLevels.mip_levels width height = Z.log2 (Z.max width height) + 1 /\
  MipLevels.mip_levels 1024 768 = 11 /\
  MipLevels.mip_levels 512 512 = 10 /\
  MipLevels.mip_levels 1 1 = 1.
Proof.
  intros Hw Hh Hm. split; [| repeat split; reflexivity].
  unfold MipLevels.mip_levels, MipLevels.log2_floor_f32.
  rewrite u32_as_f32_exact; [done | lia].
Qed.

Lemma mip_levels_floor_log2_witness :
  (1 <= 1024 /\ 1 <= 768 /\ Z.max 1024 768 <= 2 ^ 20) /\
  MipLevels.mip_levels 1024 768 = Z.log2 (Z.max 1024 768) + 1.
Proof.
  split; [vm_compute; repeat split; discriminate|].
  apply (mip_levels_floor_log2 1024 768); vm_compute; discriminate.
Defined.

(** C6, refuted: a 33554431 x 1 image (both sides fit a [u32]) gets 26
    mip levels, because [33554431 as f32] rounds to [2^25]; the formula
    gives 25. *)
Lemma mip_levels_f32_rounding :
  ~ (forall width height : Z,
       1 <= width < 2 ^ 32 -> 1 <= height < 2 ^ 32 ->
       MipLevels.mip_levels width height = Z.log2 (Z.max width height) + 1).
Proof.
  intros H.
  specialize (H 33554431 1 ltac:(lia) ltac:(lia)).
  vm_compute in H. discriminate.
Qed.

(** ** Mip-chain extents *)

Lemma level_extent_pos (k : nat) (w h : Z) :
  1 <= w -> 1 <= h ->
  1 <= fst (Mipmaps.level_extent k w h) /\ 1 <= snd (Mipmaps.level_extent k w h).
Proof.
  intros Hw Hh. induction k as [|k IH]; simpl; [lia|].
  destruct (Mipmaps.level_extent k w h). simpl. lia.
Qed.

Lemma shrink_halve (d : Z) : 1 <= d -> Mipmaps.shrink d = Z.max 1 (d / 2).
Proof.
  intros Hd. unfold Mipmaps.shrink.
  destruct (Z.ltb_spec 1 d).
  - assert (1 <= d / 2) by (apply Z.div_le_lower_bound; lia). lia.
  - replace d with 1 by lia. reflexivity.
Qed.

Lemma half_extent_halve (d : Z) : 1 <= d -> Mipmaps.half_extent d = Z.max 1 (d / 2).
Proof.
  intros Hd. unfold Mipmaps.half_extent.
  destruct (Z.ltb_spec 1 d).
  - assert (1 <= d / 2) by (apply Z.div_le_lower_bound; lia). lia.
  - replace d with 1 by lia. reflexivity.
Qed.

Lemma blits_app (c1 c2 : list Mipmaps.Command) :
  Mipmaps.blits (c1 ++ c2) = Mipmaps.blits c1 ++ Mipmaps.blits c2.
Proof. unfold Mipmaps.blits. apply omap_app. Qed.

Lemma mip_loop_blits (w h : Z) (fuel k : nat) :
  1 <= w -> 1 <= h ->
  Mipmaps.blits (Mipmaps.mip_loop (Z.of_nat k + 1) fuel
                   (fst (Mipmaps.level_extent k w h))
                   (snd (Mipmaps.level_extent k w h))) =
  map (fun j => (Z.of_nat j, Mipmaps.level_extent j w h,
                 Z.of_nat j + 1, Mipmaps.level_extent (S j) w h))
      (seq k fuel).
Proof.
  intros Hw Hh. revert k. induction fuel as [|fuel IH]; intros k; [done|].
  cbn [Mipmaps.mip_loop]. rewrite blits_app. cbn.
  pose proof (level_extent_pos k w h Hw Hh) as Hpos.
  destruct (Mipmaps.level_extent k w h) as [pw ph] eqn:Hk. simpl in Hpos |- *.
  rewrite !half_extent_halve, !shrink_halve by lia.
  replace (Z.of_nat k + 1 - 1) with (Z.of_nat k) by lia.
  replace (Z.of_nat k + 1 + 1) with (Z.of_nat (S k) + 1) by lia.
  specialize (IH (S k)). simpl Mipmaps.level_extent in IH. rewrite Hk in IH.
  simpl in IH. rewrite IH. reflexivity.
Qed.

(** C7: in the chain recorded by [generate_mipmaps] for an image of extent
    [(W, H)], the blit writing level [i] reads all of level [i-1] and
    targets level [i-1]'s extent halved on each axis with floor division,
    clamped at 1; from 1024x768 the level extents are the listed ones. *)
Theorem generate_mipmaps_blit_extents (width height levels : Z)
    (cmds : list Mipmaps.Command) :
  1 <= width -> 1 <= height ->
  Mipmaps.generate_mipmaps true width height levels = inl cmds ->
  Mipmaps.blits cmds =
    map (fun j => (Z.of_nat j, Mipmaps.level_extent j width height,
                   Z.of_nat j + 1, Mipmaps.level_extent (S j) width height))
        (seq 0 (Z.to_nat (levels - 1))) /\
  (forall j : nat,
     Mipmaps.level_extent (S j) width height =
     (Z.max 1 (fst (Mipmaps.level_extent j width height) / 2),
      Z.max 1 (snd (Mipmaps.level_extent j width height) / 2))) /\
  (exists cmds1024,
     Mipmaps.generate_mipmaps true 1024 768 11 = inl cmds1024 /\
     (1024, 768) :: map (fun '(_, _, _, dst) => dst) (Mipmaps.blits cmds1024) =
     combine [1024; 512; 256; 128; 64; 32; 16; 8; 4; 2; 1]
             [768; 384; 192; 96; 48; 24; 12; 6; 3; 1; 1]).
Proof.
  intros Hw Hh Hgen. split; [| split].
  - unfold Mipmaps.generate_mipmaps in Hgen. simpl in Hgen. injection Hgen as <-.
    rewrite blits_app. simpl. rewrite app_nil_r.
    apply (mip_loop_blits width height _ 0 Hw Hh).
  - intros j. simpl. destruct (Mipmaps.level_extent j width height). reflexivity.
  - eexists. split; [reflexivity|]. vm_compute. reflexivity.
Qed.

Lemma generate_mipmaps_blit_extents_witness :
  exists cmds, Mipmaps.generate_mipmaps true 1024 768 11 = inl cmds /\
  Mipmaps.blits cmds =
    map (fun j => (Z.of_nat j, Mipmaps.level_extent j 1024 768,
                   Z.of_nat j + 1, Mipmaps.level_extent (S j) 1024 768))
        (seq 0 (Z.to_nat (11 - 1))).
Proof.
  eexists. split; [reflexivity|].
  apply (generate_mipmaps_blit_extents 1024 768 11); [lia | lia | reflexivity].
Defined.

(** ** Vertex deduplication *)

(** C5, refuted on the code: a face that uses the same vertex twice, the
    vertex having a NaN coordinate, yields two vertex-buffer entries and
    the indices [0; 1]. Both occurrences have identical bit patterns (and
    identical [Hash] input), but [PartialEq] compares with float [==]. *)
Theorem dedup_bit_identical_nan_vertices_split :
  Dedup.hash_words Dedup.nan_vertex = Dedup.hash_words Dedup.nan_vertex /\
  Dedup.vertex_eq Dedup.nan_vertex Dedup.nan_vertex = false /\
  Dedup.dedup [Dedup.nan_vertex; Dedup.nan_vertex]
    = ([Dedup.nan_vertex; Dedup.nan_vertex], [0%nat; 1%nat]).
Proof. split; [reflexivity|]. split; vm_compute; reflexivity. Qed.

(** ** Texture upload *)

(** C8, refuted on the code: whenever both memory-type lookups succeed,
    whatever the device and the driver's requirements, the staging memory
    receives the pixels but no buffer-to-image copy is recorded: the only
    command is the layout barrier. Such runs exist: a 1x1 RGBA image on a
    discrete GPU (staging memory in type 1, image memory in type 0) is
    loaded with one copy region built and only the barrier recorded. *)
Theorem load_from_file_records_no_copy :
  (forall memory buffer_reqs image_reqs pixels width height staging_buffer image
          image_layout up,
     TextureUpload.load_from_file memory buffer_reqs image_reqs pixels width height
       staging_buffer image image_layout = inl up ->
     TextureUpload.staging_contents up = pixels /\
     TextureUpload.recorded up =
       [TextureUpload.CmdPipelineBarrier image Mipmaps.UNDEFINED
          Mipmaps.TRANSFER_DST_OPTIMAL 0 (MipLevels.mip_levels width height)] /\
     existsb TextureUpload.is_buffer_to_image_copy (TextureUpload.recorded up)
       = false) /\
  exists up,
    TextureUpload.load_from_file TextureUpload.discrete_gpu_memory
      (fun _ => TextureUpload.staging_buffer_reqs 4)
      (fun _ => TextureUpload.optimal_image_reqs 1024)
      [255; 0; 0; 255] 1 1 10 11 None = inl up /\
    TextureUpload.staging_contents up = [255; 0; 0; 255] /\
    length (TextureUpload.buffer_copy_regions up) = 1%nat /\
    TextureUpload.recorded up =
      [TextureUpload.CmdPipelineBarrier 11 Mipmaps.UNDEFINED
         Mipmaps.TRANSFER_DST_OPTIMAL 0 1].
Proof.
  split.
  - intros memory buffer_reqs image_reqs pixels width height staging_buffer image
      image_layout up.
    unfold TextureUpload.load_from_file. cbv zeta.
    destruct (Memory.get_memory_type_index _ _ _); [|discriminate].
    destruct (Memory.get_memory_type_index _ _ _); [|discriminate].
    intros [= <-]. done.
  - eexists. repeat split; vm_compute; reflexivity.
Qed.

(** ** Device allocation *)

Ltac destruct_lets :=
  repeat match goal with
         | |- context [match ?e with pair _ _ => _ end] =>
             let E := fresh "E" in destruct e eqn:E
         end.

Lemma create_objects_length (n : nat) (dev : AppModel.Device) :
  length (fst (AppModel.create_objects n dev)) = n.
Proof.
  revert dev. induction n as [|n IH]; intros dev; [done|].
  simpl. pose proof (IH (snd (AppModel.create_object dev))) as H.
  destruct (AppModel.create_objects n _) eqn:E. simpl in *. by rewrite H.
Qed.

Lemma resize_length {A} (n : nat) (v : A) (l : list A) :
  length (AppModel.resize n v l) = n.
Proof.
  unfold AppModel.resize. rewrite length_app, length_take, length_replicate. lia.
Qed.

Lemma resize_lookup {A} (n k : nat) (v : A) (l : list A) :
  (k < n)%nat -> AppModel.resize n v l !! k = Some (default v (l !! k)).
Proof.
  intros Hk. unfold AppModel.resize.
  destruct (decide (k < length l)%nat) as [Hl|Hl].
  - rewrite lookup_app_l by (rewrite length_take; lia).
    rewrite lookup_take_lt by lia.
    destruct (l !! k) eqn:E; [done|]. apply lookup_ge_None in E. lia.
  - rewrite lookup_app_r by (rewrite length_take; lia).
    rewrite lookup_replicate_2 by (rewrite length_take; lia).
    rewrite lookup_ge_None_2 by lia. done.
Qed.

Lemma create_swapchain_images_length n dev :
  length (snd (fst (AppModel.create_swapchain n dev))) = n.
Proof.
  unfold AppModel.create_swapchain. destruct_lets. simpl.
  pose proof (create_objects_length n d) as H. rewrite E0 in H. done.
Qed.

Lemma recreate_swapchain_shape n extent data dev :
  let data' := fst (AppModel.recreate_swapchain n extent data dev) in
  length (AppModel.swapchain_images data') = n /\
  AppModel.images_in_flight data' =
    AppModel.resize n null_handle (AppModel.images_in_flight data) /\
  AppModel.image_available_semaphores data' = AppModel.image_available_semaphores data /\
  AppModel.render_finished_semaphores data' = AppModel.render_finished_semaphores data /\
  AppModel.in_flight_fences data' = AppModel.in_flight_fences data.
Proof.
  unfold AppModel.recreate_swapchain. cbv zeta.
  pose proof (create_swapchain_images_length n
                (AppModel.destroy_swapchain data dev)) as Hn.
  destruct (AppModel.create_swapchain n _) as [[sc images] d1].
  simpl in Hn. subst n. destruct_lets. done.
Qed.

(** ** Swapchain recreation and [ImagesInFlight] *)

(** C2 (as amended): after a recreation with [n] images, [ImagesInFlight]
    has length [n]; entry [k] is the old entry [k] when there was one and
    the null sentinel otherwise (old entries are kept, not reset). *)
Theorem recreate_swapchain_images_in_flight (n : nat) (extent : Z * Z)
    (data : AppModel.AppData) (dev : AppModel.Device) :
  let data' := fst (AppModel.recreate_swapchain n extent data dev) in
  length (AppModel.images_in_flight data') = length (AppModel.swapchain_images data') /\
  length (AppModel.images_in_flight data') = n /\
  forall k : nat, (k < n)%nat ->
    AppModel.images_in_flight data' !! k =
      Some (default null_handle (AppModel.images_in_flight data !! k)).
Proof.
  pose proof (recreate_swapchain_shape n extent data dev) as (Hn & Hiif & _).
  simpl in *. rewrite Hiif, resize_length, Hn.
  split; [done|]. split; [done|]. intros k Hk. by apply resize_lookup.
Qed.

(** C2, refuted: with three swapchain images, two of them last written by
    the frame-slot fences 54 and 57, a recreation with three images leaves
    [ImagesInFlight = [54; 0; 57]]. *)
Lemma recreate_swapchain_keeps_fences :
  ~ (forall (n : nat) (extent : Z * Z) (data : AppModel.AppData)
            (dev : AppModel.Device),
       let data' := fst (AppModel.recreate_swapchain n extent data dev) in
       length (AppModel.images_in_flight data') = n /\
       Forall (fun f => f = null_handle) (AppModel.images_in_flight data')).
Proof.
  intros H.
  set (a0 := AppModel.create_app 3 (800, 600)).
  set (d0 := AppModel.data (fst a0)).
  set (d1 := AppModel.set_sync d0 (AppModel.image_available_semaphores d0)
               (AppModel.render_finished_semaphores d0)
               (AppModel.in_flight_fences d0) [54; 0; 57]%N).
  destruct (H 3%nat (800, 600) d1 (snd a0)) as [_ Hall].
  vm_compute in Hall. inversion Hall as [|? ? Hx]. discriminate.
Qed.

(** ** The present step of [App::render] *)

(** C3 (as amended): a suboptimal or out-of-date present result, or a set
    resize flag, leads to a full recreation (the flag is cleared first),
    after which the frame counter advances and [render] returns [Ok] when
    the recreation succeeds, or the recreation's own error; with the flag
    clear, any other present failure is returned as an error and a plain
    success advances the frame. With the model's recreation, which always
    succeeds, a suboptimal or out-of-date result makes [render] return
    [Ok]. *)
Theorem render_present_outcome
    (recreate : AppModel.App -> AppModel.Device ->
                (AppModel.App * AppModel.Device) + AppError)
    (result : VkResult unit) (app : AppModel.App) (dev : AppModel.Device)
    (n : nat) (extent : Z * Z) :
  (AppModel.resized app || AppModel.present_changed result = true ->
   AppModel.render_present_tail recreate result app dev =
     match recreate (AppModel.set_resized app false) dev with
     | inr e => inr e
     | inl (app', dev') => inl (AppModel.advance_frame app', dev')
     end) /\
  (AppModel.present_changed result = true ->
   AppModel.render_present_tail
     (fun a d => inl (AppModel.recreate_app n extent a d)) result app dev =
   let '(app', dev') :=
     AppModel.recreate_app n extent (AppModel.set_resized app false) dev in
   inl (AppModel.advance_frame app', dev')) /\
  (AppModel.resized app = false -> forall e, result = inr e ->
   e <> ERROR_OUT_OF_DATE_KHR ->
   AppModel.render_present_tail recreate result app dev = inr (VkError e)) /\
  (AppModel.resized app = false -> result = inl (tt, SUCCESS) ->
   AppModel.render_present_tail recreate result app dev =
     inl (AppModel.advance_frame app, dev)).
Proof.
  unfold AppModel.render_present_tail. split; [| split; [| split]].
  - intros H. by rewrite H.
  - intros H. rewrite H, orb_true_r.
    by destruct (AppModel.recreate_app _ _ _ _).
  - intros Hr e -> Hne. rewrite Hr. simpl.
    by destruct (Z.eqb_spec e ERROR_OUT_OF_DATE_KHR).
  - intros Hr ->. by rewrite Hr.
Qed.

Lemma render_present_outcome_witness :
  AppModel.render_present_tail
    (fun a d => inl (AppModel.recreate_app 2 (800, 600) a d))
    (inl (tt, SUBOPTIMAL_KHR)) (fst (AppModel.create_app 2 (800, 600)))
    (snd (AppModel.create_app 2 (800, 600))) =
  let '(app', dev') :=
    AppModel.recreate_app 2 (800, 600)
      (AppModel.set_resized (fst (AppModel.create_app 2 (800, 600))) false)
      (snd (AppModel.create_app 2 (800, 600))) in
  inl (AppModel.advance_frame app', dev').
Proof.
  apply (render_present_outcome
           (fun a d => inl (AppModel.recreate_app 2 (800, 600) a d))
           (inl (tt, SUBOPTIMAL_KHR)) (fst (AppModel.create_app 2 (800, 600)))
           (snd (AppModel.create_app 2 (800, 600))) 2 (800, 600)).
  reflexivity.
Defined.

(** C3, refuted: with the resize flag set, a present failure other than
    out-of-date (here [FULL_SCREEN_EXCLUSIVE_MODE_LOST_EXT]) is dropped:
    the swapchain is recreated and [render] returns [Ok]. *)
Lemma present_error_dropped_when_resized :
  ~ (forall (recreate : AppModel.App -> AppModel.Device ->
                        (AppModel.App * AppModel.Device) + AppError)
            (app : AppModel.App) (dev : AppModel.Device) (e : Z),
       e <> ERROR_OUT_OF_DATE_KHR ->
       exists err, AppModel.render_present_tail recreate (inr e) app dev = inr err).
Proof.
  intros H.
  destruct (H (fun a d => inl (AppModel.recreate_app 2 (800, 600) a d))
              (AppModel.set_resized (fst (AppModel.create_app 2 (800, 600))) true)
              (snd (AppModel.create_app 2 (800, 600)))
              ERROR_FULL_SCREEN_EXCLUSIVE_MODE_LOST_EXT ltac:(discriminate))
    as [err Herr].
  vm_compute in Herr. discriminate.
Qed.

(** ** The uniform update *)

(** C10: [update_uniform_buffer] for image index [i] writes one
    [UniformBufferObject] at offset 0 of the memory of uniform buffer [i];
    the rest of that memory, every other memory object, the set of live
    objects and the whole [App] (hence [ImagesInFlight], the frame counter
    and the other uniform buffers) are unchanged. *)
Theorem update_uniform_buffer_frame_effect (ubo : list Z) (i : nat)
    (app : AppModel.App) (dev : AppModel.Device) (m : handle) (old : list Z) :
  length ubo = AppModel.UBO_SIZE ->
  AppModel.uniform_buffers_memory (AppModel.data app) !! i = Some m ->
  AppModel.memory dev !! m = Some old ->
  exists dev',
    AppModel.update_uniform_buffer ubo i app dev = inl (app, dev') /\
    AppModel.live dev' = AppModel.live dev /\
    AppModel.next_handle dev' = AppModel.next_handle dev /\
    AppModel.memory dev' !! m = Some (ubo ++ drop AppModel.UBO_SIZE old) /\
    (forall m', m' <> m -> AppModel.memory dev' !! m' = AppModel.memory dev !! m').
Proof.
  intros Hlen Hm Hold. unfold AppModel.update_uniform_buffer.
  rewrite Hm, Hold. eexists. split; [reflexivity|]. simpl.
  split; [done|]. split; [done|]. split.
  - by rewrite lookup_insert_eq.
  - intros m' Hne. by rewrite lookup_insert_ne.
Qed.

Lemma update_uniform_buffer_frame_effect_witness :
  let a := AppModel.create_app 3 (800, 600) in
  (length (replicate 192 1) = AppModel.UBO_SIZE /\
   AppModel.uniform_buffers_memory (AppModel.data (fst a)) !! 1%nat = Some 42%N /\
   AppModel.memory (snd a) !! 42%N = Some (replicate 192 0)) /\
  exists dev',
    AppModel.update_uniform_buffer (replicate 192 1) 1 (fst a) (snd a)
      = inl (fst a, dev') /\
    AppModel.live dev' = AppModel.live (snd a) /\
    AppModel.next_handle dev' = AppModel.next_handle (snd a) /\
    AppModel.memory dev' !! 42%N =
      Some (replicate 192 1 ++ drop AppModel.UBO_SIZE (replicate 192 0)) /\
    (forall m', m' <> 42%N ->
       AppModel.memory dev' !! m' = AppModel.memory (snd a) !! m').
Proof.
  intros a. split; [split; [reflexivity | split; vm_compute; reflexivity]|].
  apply update_uniform_buffer_frame_effect;
    [reflexivity | vm_compute; reflexivity | vm_compute; reflexivity].
Defined.

(** ** Allocation footprints *)

Section Footprints.

Import AppModel Footprint.

Lemma allocates_refl dev : allocates dev dev [].
Proof. split; [lia|]. split; [by intros x Hx _|]. intros h Hh. inversion Hh. Qed.

Lemma allocates_trans d1 d2 d3 hs hs' :
  allocates d1 d2 hs -> allocates d2 d3 hs' -> allocates d1 d3 (hs ++ hs').
Proof.
  intros (H1 & H2 & H3) (H1' & H2' & H3'). split; [lia|].
  split; [intros x Hx Hlt; apply H2'; [by apply H2 | lia]|].
  intros h Hh. apply elem_of_app in Hh as [Hh|Hh].
  - specialize (H3 h Hh). lia.
  - specialize (H3' h Hh). lia.
Qed.

Lemma allocates_weaken d1 d2 hs hs' :
  allocates d1 d2 hs -> (forall h, h ∈ hs' -> h ∈ hs) -> allocates d1 d2 hs'.
Proof. intros (H1 & H2 & H3) Hsub. split; [done|]. split; [done|]. auto. Qed.

Lemma create_object_allocates dev h dev' :
  create_object dev = (h, dev') -> allocates dev dev' [h] /\ h ∈ live dev'.
Proof.
  intros [= <- <-]. split; [split; [simpl; lia|split]|].
  - intros x Hx _. simpl. by apply elem_of_cons; right.
  - intros h Hh. apply list_elem_of_singleton in Hh as ->. simpl. lia.
  - simpl. apply elem_of_cons. by left.
Qed.

Lemma create_objects_allocates n dev hs dev' :
  create_objects n dev = (hs, dev') -> allocates dev dev' hs.
Proof.
  revert dev hs. induction n as [|n IH]; intros dev hs; cbn [create_objects].
  - intros [= <- <-]. apply allocates_refl.
  - destruct (create_object dev) as [h d1] eqn:E1.
    destruct (create_objects n d1) as [hs1 d2] eqn:E2. intros [= <- <-].
    apply (allocates_trans dev d1 _ [h] hs1);
      [by apply create_object_allocates | by apply IH].
Qed.

Lemma allocate_memory_allocates size dev h dev' :
  allocate_memory size dev = (h, dev') -> allocates dev dev' [h].
Proof.
  unfold allocate_memory. destruct (create_object dev) as [h1 d1] eqn:E.
  intros [= <- <-]. apply create_object_allocates in E as [E _]. exact E.
Qed.

Lemma create_swapchain_allocates n dev sc images dev' :
  create_swapchain n dev = ((sc, images), dev') -> allocates dev dev' (sc :: images).
Proof.
  unfold create_swapchain.
  destruct (create_object dev) as [h d1] eqn:E1.
  destruct (create_objects n d1) as [hs d2] eqn:E2. intros [= <- <- <-].
  apply (allocates_trans dev d1 _ [h] hs);
    [by apply create_object_allocates | by eapply create_objects_allocates].
Qed.

Lemma create_attachment_objects_allocates dev a b c dev' :
  create_attachment_objects dev = ((a, b, c), dev') -> allocates dev dev' [a; b; c].
Proof.
  unfold create_attachment_objects.
  destruct (create_object dev) as [h1 d1] eqn:E1.
  destruct (allocate_memory 0 d1) as [h2 d2] eqn:E2.
  destruct (create_object d2) as [h3 d3] eqn:E3. intros [= <- <- <- <-].
  apply (allocates_trans dev d1 _ [h1] [h2; h3]);
    [by apply create_object_allocates|].
  apply (allocates_trans d1 d2 _ [h2] [h3]);
    [by eapply allocate_memory_allocates | by apply create_object_allocates].
Qed.

Lemma create_uniform_buffers_allocates n dev bs ms dev' :
  create_uniform_buffers n dev = ((bs, ms), dev') -> allocates dev dev' (bs ++ ms).
Proof.
  revert dev bs ms. induction n as [|n IH]; intros dev bs ms;
    cbn [create_uniform_buffers].
  - intros [= <- <- <-]. apply allocates_refl.
  - destruct (create_object dev) as [b d1] eqn:E1.
    destruct (allocate_memory UBO_SIZE d1) as [m d2] eqn:E2.
    destruct (create_uniform_buffers n d2) as [[bs1 ms1] d3] eqn:E3.
    intros [= <- <- <-].
    apply (allocates_weaken _ _ ([b] ++ [m] ++ (bs1 ++ ms1))).
    + apply (allocates_trans dev d1 _ [b]); [by apply create_object_allocates|].
      apply (allocates_trans d1 d2 _ [m]); [by eapply allocate_memory_allocates|].
      by apply IH.
    + intros h. simpl. set_solver.
Qed.

Ltac alloc_base :=
  first [ eapply (fun d h d' H => proj1 (create_object_allocates d h d' H));
          eassumption
        | eapply allocate_memory_allocates; eassumption ].

Lemma destroy_objects_allocates dev d hs temps :
  allocates dev d hs -> (forall t, t ∈ temps -> (next_handle dev <= t)%N) ->
  allocates dev (destroy_objects temps d) hs.
Proof.
  intros (H1 & H2 & H3) Ht. split; [done|]. split; [|done].
  intros x Hx Hlt. unfold destroy_objects. simpl. apply list_elem_of_filter.
  split; [|by apply H2]. intros Hin. specialize (Ht x Hin). lia.
Qed.

Lemma texture_load_from_file_allocates dev t dev' :
  texture_load_from_file dev = (t, dev') -> allocates dev dev' (texture_handles t).
Proof.
  unfold texture_load_from_file. cbv zeta.
  destruct (create_object dev) as [cc d1] eqn:E1.
  destruct (create_object d1) as [sb d2] eqn:E2.
  destruct (allocate_memory 0 d2) as [sm d3] eqn:E3.
  destruct (create_object d3) as [img d4] eqn:E4.
  destruct (allocate_memory 0 d4) as [mem d5] eqn:E5.
  destruct (create_object d5) as [f d6] eqn:E6.
  destruct (create_object (destroy_objects [f; cc; sm; sb] d6)) as [smp d7] eqn:E7.
  destruct (create_object d7) as [view d8] eqn:E8.
  intros [= <- <-].
  assert (A6 : allocates dev d6 ([cc] ++ [sb] ++ [sm] ++ [img] ++ [mem] ++ [f] ++ []))
    by (repeat (eapply allocates_trans; [alloc_base|]); apply allocates_refl).
  assert (A8 : allocates (destroy_objects [f; cc; sm; sb] d6) d8 ([smp] ++ [view] ++ []))
    by (repeat (eapply allocates_trans; [alloc_base|]); apply allocates_refl).
  eapply allocates_weaken.
  - eapply allocates_trans; [apply destroy_objects_allocates; [exact A6|] | exact A8].
    intros t Ht. destruct A6 as (_ & _ & Hr).
    destruct (Hr t) as [Hle _]; [clear - Ht; set_solver | exact Hle].
  - intros h. unfold texture_handles. simpl. clear. set_solver.
Qed.

Lemma create_buffer_allocates dev b m dev' :
  create_buffer dev = ((b, m), dev') -> allocates dev dev' [b; m].
Proof.
  unfold create_buffer.
  destruct (create_object dev) as [b1 d1] eqn:E1.
  destruct (allocate_memory 0 d1) as [m1 d2] eqn:E2. intros [= <- <- <-].
  change [b1; m1] with ([b1] ++ [m1] ++ []).
  repeat (eapply allocates_trans; [alloc_base|]); apply allocates_refl.
Qed.

Lemma create_device_local_buffer_allocates dev b m dev' :
  create_device_local_buffer dev = ((b, m), dev') -> allocates dev dev' [b; m].
Proof.
  unfold create_device_local_buffer. cbv zeta.
  destruct (create_buffer dev) as [[sb sm] d1] eqn:E1.
  destruct (create_buffer d1) as [[b1 m1] d2] eqn:E2. intros [= <- <- <-].
  apply create_buffer_allocates in E1, E2.
  eapply allocates_weaken;
    [apply destroy_objects_allocates; [eapply allocates_trans; [exact E1 | exact E2]|]|].
  - intros t Ht. destruct E1 as (_ & _ & Hr). by destruct (Hr t Ht).
  - intros h Hh. clear - Hh. set_solver.
Qed.

Lemma mesh_from_filepath_allocates dev m dev' :
  mesh_from_filepath dev = (m, dev') -> allocates dev dev' (mesh_handles m).
Proof.
  unfold mesh_from_filepath.
  destruct (create_device_local_buffer dev) as [[vb vm] d1] eqn:E1.
  destruct (create_device_local_buffer d1) as [[ib im] d2] eqn:E2.
  intros [= <- <-]. apply create_device_local_buffer_allocates in E1, E2.
  unfold mesh_handles. simpl. change [vb; vm; ib; im] with ([vb; vm] ++ [ib; im]).
  by eapply allocates_trans.
Qed.

Ltac alloc_step :=
  first [ eapply create_swapchain_allocates; eassumption
        | eapply texture_load_from_file_allocates; eassumption
        | eapply mesh_from_filepath_allocates; eassumption
        | eapply create_objects_allocates; eassumption
        | eapply (fun d h d' H => proj1 (create_object_allocates d h d' H));
          eassumption
        | eapply create_attachment_objects_allocates; eassumption
        | eapply create_uniform_buffers_allocates; eassumption ].

Ltac alloc_chain :=
  repeat (eapply allocates_trans; [alloc_step|]); apply allocates_refl.

Lemma recreate_swapchain_allocates n extent data dev data' dev' :
  recreate_swapchain n extent data dev = (data', dev') ->
  allocates (destroy_swapchain data dev) dev' (swapchain_handles data').
Proof.
  unfold recreate_swapchain, create_swapchain_image_views. cbv zeta.
  destruct_lets. intros [= <- <-].
  eapply allocates_weaken; [alloc_chain|].
  intros h. unfold swapchain_handles. simpl. set_solver.
Qed.

Lemma create_sync_loop_two dev :
  let b := next_handle dev in
  create_sync_loop 2 [] [] [] dev =
    (([b; (b + 3)%N], [(b + 1)%N; (b + 4)%N], [(b + 2)%N; (b + 5)%N]),
     {| live := [(b + 5)%N; (b + 4)%N; (b + 3)%N; (b + 2)%N; (b + 1)%N; b]
                ++ live dev;
        next_handle := (b + 6)%N; memory := memory dev |}).
Proof.
  simpl. repeat (f_equal; try lia).
Qed.

Lemma destroy_swapchain_live data dev x :
  x ∈ live dev -> x ∉ swapchain_handles data ->
  x ∈ live (destroy_swapchain data dev).
Proof.
  intros Hx Hn. unfold destroy_swapchain, destroy_objects. simpl.
  apply list_elem_of_filter. done.
Qed.

Lemma destroy_swapchain_next data dev :
  next_handle (destroy_swapchain data dev) = next_handle dev.
Proof. done. Qed.

(** ** Startup *)

Lemma create_sync_objects_facts data dev data' dev' :
  image_available_semaphores data = [] -> render_finished_semaphores data = [] ->
  in_flight_fences data = [] ->
  create_sync_objects data dev = (data', dev') ->
  let b := next_handle dev in
  image_available_semaphores data' = [b; (b + 3)%N] /\
  render_finished_semaphores data' = [(b + 1)%N; (b + 4)%N] /\
  in_flight_fences data' = [(b + 2)%N; (b + 5)%N] /\
  images_in_flight data' = map (fun _ => null_handle) (swapchain_images data) /\
  swapchain_images data' = swapchain_images data /\
  swapchain_handles data' = swapchain_handles data /\
  live dev' = [(b + 5)%N; (b + 4)%N; (b + 3)%N; (b + 2)%N; (b + 1)%N; b] ++ live dev /\
  next_handle dev' = (b + 6)%N.
Proof.
  intros H1 H2 H3. unfold create_sync_objects, MAX_FRAMES_IN_FLIGHT.
  rewrite H1, H2, H3, create_sync_loop_two. intros [= <- <-]. done.
Qed.

Lemma create_app_prefix n extent :
  exists data0 dev0,
    allocates initial_device dev0 (swapchain_handles data0) /\
    image_available_semaphores data0 = [] /\ render_finished_semaphores data0 = [] /\
    in_flight_fences data0 = [] /\
    create_app n extent =
      (let '(data, dev) := create_sync_objects data0 dev0 in
       ({| data := data; frame := 0; resized := false |}, dev)).
Proof.
  unfold create_app, create_swapchain_image_views. cbv zeta.
  repeat match goal with
         | |- context [match ?e with pair _ _ => _ end] =>
             lazymatch e with
             | create_sync_objects _ _ => fail
             | _ => let E := fresh "E" in destruct e eqn:E
             end
         end.
  refine (ex_intro _ _ (ex_intro _ _ (conj _ (conj _ (conj _ (conj _ eq_refl))))));
    [| reflexivity ..].
  eapply allocates_weaken; [alloc_chain|].
  intros h Hh. clear - Hh. unfold swapchain_handles in Hh. simpl in Hh |- *.
  set_solver.
Qed.

Lemma create_app_facts n extent :
  let '(a, d) := create_app n extent in
  let b := (next_handle d - 6)%N in
  (1 <= b)%N /\
  image_available_semaphores (data a) = [b; (b + 3)%N] /\
  render_finished_semaphores (data a) = [(b + 1)%N; (b + 4)%N] /\
  in_flight_fences (data a) = [(b + 2)%N; (b + 5)%N] /\
  (forall h, h ∈ swapchain_handles (data a) -> (h < b)%N) /\
  (forall h, h ∈ sync_handles (data a) -> h ∈ live d /\ (h < next_handle d)%N) /\
  images_in_flight (data a) = map (fun _ => null_handle) (swapchain_images (data a)) /\
  frame a = 0%nat /\ resized a = false.
Proof.
  destruct (create_app_prefix n extent) as (d0 & dev0 & Hal & H1 & H2 & H3 & ->).
  destruct (create_sync_objects d0 dev0) as [d1 dev1] eqn:E.
  destruct (create_sync_objects_facts _ _ _ _ H1 H2 H3 E)
    as (Hia & Hrf & Hif & Hiif & Himg & Hsh & Hlive & Hnext).
  destruct Hal as (Hn & _ & Hh). simpl in Hn, Hh.
  simpl. rewrite Hnext, Hia, Hrf, Hif, Hiif, Himg, Hsh.
  replace (next_handle dev0 + 6 - 6)%N with (next_handle dev0) by lia.
  split; [lia|]. do 3 (split; [done|]). split; [by intros h Hx; apply Hh|].
  split; [|done].
  intros h Hx. unfold sync_handles in Hx. rewrite Hia, Hrf, Hif in Hx.
  rewrite Hlive. split; [set_solver|].
  simpl in Hx. repeat (apply elem_of_cons in Hx as [->|Hx]; [lia|]). set_solver.
Qed.

End Footprints.

(** ** Frame slots across the frame loop *)

Section FrameSlots.

Import AppModel Footprint FrameLoop.

Lemma update_uniform_buffer_inl ubo i a d a' d' :
  update_uniform_buffer ubo i a d = inl (a', d') ->
  a' = a /\ live d' = live d /\ next_handle d' = next_handle d.
Proof.
  unfold update_uniform_buffer.
  destruct (uniform_buffers_memory (data a) !! i); [|discriminate].
  destruct (memory d !! _); [|discriminate]. by intros [= <- <-].
Qed.

Lemma recreate_app_inv n extent a d a' d' :
  recreate_app n extent a d = (a', d') ->
  frame a' = frame a /\ resized a' = resized a /\
  recreate_swapchain n extent (data a) d = (data a', d').
Proof.
  unfold recreate_app. destruct (recreate_swapchain n extent (data a) d) eqn:E.
  by intros [= <- <-].
Qed.

Lemma data_after_recreate (adv : bool) (a : App) :
  data (if adv then advance_frame a else a) = data a.
Proof. by destruct adv. Qed.

Lemma sync_handles_set_images_in_flight a iif :
  sync_handles (data (set_images_in_flight a iif)) = sync_handles (data a) /\
  swapchain_handles (data (set_images_in_flight a iif)) = swapchain_handles (data a).
Proof. done. Qed.

Lemma frame_slots_invariant n extent st :
  reachable n extent st ->
  let a0 := fst (create_app n extent) in
  image_available_semaphores (data (app st)) = image_available_semaphores (data a0) /\
  render_finished_semaphores (data (app st)) = render_finished_semaphores (data a0) /\
  in_flight_fences (data (app st)) = in_flight_fences (data a0) /\
  (forall s, s ∈ sync_handles (data (app st)) ->
     s ∈ live (dev st) /\ (s < next_handle (dev st))%N /\
     s ∉ swapchain_handles (data (app st))).
Proof.
  intros Hr. induction Hr as [|st st' Hr IH Hs]; cbv zeta in *.
  - unfold init_state. pose proof (create_app_facts n extent) as Hf.
    destruct (create_app n extent) as [a d]. cbv zeta in Hf. simpl.
    destruct Hf as (Hb & Hia & Hrf & Hif & Hsw & Hsync & _).
    do 3 (split; [done|]). intros s Hs.
    destruct (Hsync s Hs) as [Hl Hn]. do 2 (split; [done|]).
    intros Hin. apply Hsw in Hin.
    unfold sync_handles in Hs. rewrite Hia, Hrf, Hif in Hs. simpl in Hs.
    repeat (apply elem_of_cons in Hs as [->|Hs]; [lia|]). set_solver.
  - destruct IH as (Hia & Hrf & Hif & Hsync).
    destruct Hs as [Hc|Hg]; [inversion Hc; subst | inversion Hg; subst];
      simpl in *; try by auto.
    + (* submit *)
      apply update_uniform_buffer_inl in H as (-> & Hl & Hn).
      destruct (sync_handles_set_images_in_flight a
                  (<[i := current_fence a]> (images_in_flight (data a))))
        as [Hs1 Hs2].
      rewrite Hs1, Hs2, Hl, Hn. simpl. auto.
    + (* recreate *)
      rewrite !data_after_recreate.
      apply recreate_app_inv in H0 as (_ & _ & Hrec).
      pose proof (recreate_swapchain_shape n0 extent0 (data a) d) as Hsh.
      rewrite Hrec in Hsh. simpl in Hsh. destruct Hsh as (_ & _ & Hia' & Hrf' & Hif').
      apply recreate_swapchain_allocates in Hrec as (Hn & Hl & Hh).
      rewrite destroy_swapchain_next in Hn, Hh.
      rewrite Hia', Hrf', Hif'. do 3 (split; [done|]).
      intros s Hs. unfold sync_handles in Hs. rewrite Hia', Hrf', Hif' in Hs.
      destruct (Hsync s Hs) as (Hls & Hns & Hsw).
      split; [apply Hl; [by apply destroy_swapchain_live | by rewrite destroy_swapchain_next]|].
      split; [lia|]. intros Hin. apply Hh in Hin. lia.
Qed.

Lemma destroy_removes_sync data dev s :
  s ∈ sync_handles data -> s ∉ live (destroy data dev).
Proof.
  intros Hs. unfold destroy, destroy_objects. simpl.
  rewrite list_elem_of_filter. intros [Hn _]. apply Hn.
  unfold sync_handles in Hs. set_solver.
Qed.

Lemma sync_handles_nodup (b : N) :
  NoDup ([b; (b + 3)%N] ++ [(b + 1)%N; (b + 4)%N] ++ [(b + 2)%N; (b + 5)%N]).
Proof.
  simpl. repeat constructor; intros Hx;
    repeat (apply elem_of_cons in Hx as [Hx|Hx]; [lia|]); set_solver.
Qed.

(** C9: in every state the frame loop reaches, the frame-slot arrays are
    exactly the ones [create_sync_objects] built at startup: each holds
    [MAX_FRAMES_IN_FLIGHT] = 2 handles, the six handles are distinct,
    swapchain recreation (at any new size) leaves the three arrays as they
    are, every slot object is alive, and [destroy] at shutdown destroys
    them. *)
Theorem frame_slots_fixed n extent st :
  reachable n extent st ->
  let a0 := fst (create_app n extent) in
  let d := data (app st) in
  length (image_available_semaphores d) = MAX_FRAMES_IN_FLIGHT /\
  length (render_finished_semaphores d) = MAX_FRAMES_IN_FLIGHT /\
  length (in_flight_fences d) = MAX_FRAMES_IN_FLIGHT /\
  NoDup (sync_handles d) /\
  image_available_semaphores d = image_available_semaphores (data a0) /\
  render_finished_semaphores d = render_finished_semaphores (data a0) /\
  in_flight_fences d = in_flight_fences (data a0) /\
  (forall n' extent' dev',
     let d' := fst (recreate_swapchain n' extent' d dev') in
     image_available_semaphores d' = image_available_semaphores d /\
     render_finished_semaphores d' = render_finished_semaphores d /\
     in_flight_fences d' = in_flight_fences d) /\
  (forall s, s ∈ sync_handles d ->
     s ∈ live (dev st) /\ s ∉ live (destroy d (dev st))).
Proof.
  intros Hr. cbv zeta.
  destruct (frame_slots_invariant n extent st Hr) as (Hia & Hrf & Hif & Hsync).
  pose proof (create_app_facts n extent) as Hf.
  destruct (create_app n extent) as [a0 d0]. cbv zeta in Hf. cbn [fst] in *.
  destruct Hf as (_ & Hia0 & Hrf0 & Hif0 & _).
  rewrite Hia, Hrf, Hif, Hia0, Hrf0, Hif0.
  do 3 (split; [done|]). split.
  { unfold sync_handles. rewrite Hia, Hrf, Hif, Hia0, Hrf0, Hif0.
    apply sync_handles_nodup. }
  do 3 (split; [done|]). split.
  - intros n' extent' dev'.
    destruct (recreate_swapchain_shape n' extent' (data (app st)) dev')
      as (_ & _ & H1 & H2 & H3).
    rewrite H1, H2, H3. rewrite Hia, Hrf, Hif, Hia0, Hrf0, Hif0. done.
  - intros s Hs. split; [by apply Hsync|]. by apply destroy_removes_sync.
Qed.

Lemma frame_slots_fixed_witness :
  reachable 3 (800, 600) (init_state 3 (800, 600)) /\
  length (image_available_semaphores (data (app (init_state 3 (800, 600)))))
    = MAX_FRAMES_IN_FLIGHT.
Proof.
  split; [apply reach_init|].
  exact (proj1 (frame_slots_fixed 3 (800, 600) _ (reach_init 3 (800, 600)))).
Defined.

End FrameSlots.

(** ** Frames in flight *)

Section FramesInFlight.

Import AppModel Footprint FrameLoop.

Lemma fence_signaled_spec p f :
  fence_signaled p f = true <-> forall j, (f, j) ∉ p.
Proof.
  induction p as [|[g k] p IH]; simpl.
  - split; [intros _ j Hj; inversion Hj | done].
  - rewrite andb_true_iff, negb_true_iff, N.eqb_neq, IH. split.
    + intros [Hne H] j Hj. apply elem_of_cons in Hj as [[= -> _]|Hj]; [done|].
      by apply (H j).
    + intros H. split.
      * intros ->. apply (H k). by apply elem_of_cons; left.
      * intros j Hj. apply (H j). by apply elem_of_cons; right.
Qed.

Lemma fence_signaled_false p f :
  fence_signaled p f = false -> exists j, (f, j) ∈ p.
Proof.
  induction p as [|[g k] p IH]; simpl; [discriminate|].
  destruct (N.eqb_spec g f) as [->|Hne]; simpl.
  - intros _. exists k. by apply elem_of_cons; left.
  - intros H. destruct (IH H) as [j Hj]. exists j. by apply elem_of_cons; right.
Qed.

Lemma fence_signaled_remove p1 x p2 f :
  fence_signaled (p1 ++ x :: p2) f = true -> fence_signaled (p1 ++ p2) f = true.
Proof.
  rewrite !fence_signaled_spec. intros H j Hj. apply (H j). set_solver.
Qed.

Lemma image_ready_remove p1 x p2 iif i :
  image_ready (p1 ++ x :: p2) iif i = true -> image_ready (p1 ++ p2) iif i = true.
Proof.
  unfold image_ready. destruct (iif !! i); [|done].
  rewrite !orb_true_iff. intros [H|H]; [by left | right].
  by eapply fence_signaled_remove.
Qed.

Lemma nodup_snd {A B} (l : list (A * B)) :
  NoDup (map fst l) ->
  (forall x y, x ∈ l -> y ∈ l -> snd x = snd y -> fst x = fst y) ->
  NoDup (map snd l).
Proof.
  induction l as [|x l IH]; simpl; intros Hnd Hxy; [constructor|].
  apply NoDup_cons in Hnd as [Hx Hl]. apply NoDup_cons. split.
  - intros Hin. apply list_elem_of_In, in_map_iff in Hin as [y [Hy Hiny]].
    apply list_elem_of_In in Hiny.
    assert (fst y = fst x) as Hf by (apply Hxy; set_solver).
    apply Hx. apply list_elem_of_In, in_map_iff. exists y.
    split; [done|]. by apply list_elem_of_In.
  - apply IH; [done|]. intros y z Hy Hz. apply Hxy; set_solver.
Qed.

Lemma in_flight_fences_shape n extent st :
  reachable n extent st ->
  length (in_flight_fences (data (app st))) = MAX_FRAMES_IN_FLIGHT /\
  null_handle ∉ in_flight_fences (data (app st)).
Proof.
  intros Hr. destruct (frame_slots_invariant n extent st Hr) as (_ & _ & Hif & _).
  pose proof (create_app_facts n extent) as Hf.
  destruct (create_app n extent) as [a0 d0]. cbv zeta in Hf. cbn [fst] in Hif.
  destruct Hf as (Hb & _ & _ & Hif0 & _). rewrite Hif, Hif0.
  split; [done|]. unfold null_handle. intros Hin.
  repeat (apply elem_of_cons in Hin as [Hin|Hin]; [lia|]). set_solver.
Qed.

Lemma current_fence_elem a :
  (frame a < length (in_flight_fences (data a)))%nat ->
  current_fence a ∈ in_flight_fences (data a).
Proof.
  intros Hlt. unfold current_fence. rewrite nth_lookup.
  destruct (in_flight_fences (data a) !! frame a) eqn:E.
  - simpl. by eapply list_elem_of_lookup_2.
  - apply lookup_ge_None in E. lia.
Qed.

Lemma frame_loop_invariant n extent st :
  reachable n extent st ->
  let a := app st in
  let p := pending st in
  let fs := in_flight_fences (data a) in
  let iif := images_in_flight (data a) in
  (frame a < MAX_FRAMES_IN_FLIGHT)%nat /\
  length iif = length (swapchain_images (data a)) /\
  (forall f j, (f, j) ∈ p -> f ∈ fs /\ iif !! j = Some f) /\
  NoDup (map fst p) /\
  match pc st with
  | AtAcquire => fence_signaled p (current_fence a) = true
  | AtWaitImage i => fence_signaled p (current_fence a) = true /\ (i < length iif)%nat
  | AtSubmit i =>
      fence_signaled p (current_fence a) = true /\ (i < length iif)%nat /\
      image_ready p iif i = true
  | _ => True
  end.
Proof.
  intros Hr. induction Hr as [|st st' Hr IH Hs]; cbv zeta in *.
  - unfold init_state. pose proof (create_app_facts n extent) as Hf.
    destruct (create_app n extent) as [a d]. cbv zeta in Hf. simpl.
    destruct Hf as (_ & _ & _ & _ & _ & _ & Hiif & Hfr & _).
    rewrite Hfr, Hiif, length_map. split; [unfold MAX_FRAMES_IN_FLIGHT; lia|].
    split; [done|]. split; [intros f j Hj; inversion Hj|]. split; [constructor|done].
  - destruct (in_flight_fences_shape n extent st Hr) as [Hfl Hnull].
    destruct IH as (Hfr & Hlen & Hpend & Hnd & Hpc).
    destruct Hs as [Hc|Hg]; [inversion Hc; subst | inversion Hg; subst];
      simpl in *.
    + (* resize event *) auto.
    + (* wait for the frame's fence *) auto.
    + (* acquire *) do 5 (split; [done|]). lia.
    + (* acquire: out of date *) auto.
    + (* wait for the image *) destruct Hpc. do 6 (split; [done|]). done.
    + (* submit *)
      destruct Hpc as (Hsig & Hi & Hready).
      apply update_uniform_buffer_inl in H as (-> & _ & _). simpl.
      rewrite length_insert. split; [done|]. split; [done|]. split; [|split; [|done]].
      * intros f j Hj. apply elem_of_cons in Hj as [[= -> ->]|Hj].
        -- split; [apply current_fence_elem; lia|].
           by apply list_lookup_insert_eq.
        -- destruct (Hpend f j Hj) as [Hf Hj']. split; [done|].
           rewrite list_lookup_insert_ne; [done|]. intros ->.
           unfold image_ready in Hready. rewrite Hj' in Hready.
           apply orb_true_iff in Hready as [Hn|Hs].
           ++ apply N.eqb_eq in Hn as ->. done.
           ++ by apply fence_signaled_spec with (j := j) in Hs.
      * apply NoDup_cons. split; [|done].
        intros Hin. apply list_elem_of_In, in_map_iff in Hin as [[g k] [Hg Hin]].
        simpl in Hg. subst g. apply list_elem_of_In in Hin.
        by apply fence_signaled_spec with (j := k) in Hsig.
    + (* present, then recreate *) auto.
    + (* present *)
      unfold MAX_FRAMES_IN_FLIGHT in *.
      split; [destruct (frame a) as [|[|k]]; simpl; lia|]. auto.
    + (* recreate *)
      rewrite !data_after_recreate.
      apply recreate_app_inv in H0 as (Hfr' & _ & Hrec).
      pose proof (recreate_swapchain_shape n0 extent0 (data a) d) as Hsh.
      rewrite Hrec in Hsh. simpl in Hsh. destruct Hsh as (Himg & Hiif & _).
      rewrite Hiif, resize_length, Himg. split.
      { unfold MAX_FRAMES_IN_FLIGHT in *. destruct adv; simpl; rewrite ?Hfr'.
        - destruct (frame a) as [|[|k]]; simpl; lia.
        - lia. }
      split; [done|]. split; [intros f j Hj; inversion Hj|]. split; [constructor|done].
    + (* the GPU completes a submission *)
      split; [done|]. split; [done|]. split; [|split].
      * intros f' j' Hj. apply Hpend. set_solver.
      * rewrite map_app in *. simpl in Hnd.
        apply NoDup_app in Hnd as (H1 & H2 & H3). apply NoDup_cons in H3 as [_ H3].
        apply NoDup_app. split; [done|]. split; [|done].
        intros x Hx Hx'. apply (H2 x Hx). set_solver.
      * destruct c; try done.
        -- by eapply fence_signaled_remove.
        -- destruct Hpc as [Hsig Hi]. split; [|done]. by eapply fence_signaled_remove.
        -- destruct Hpc as (Hsig & Hi & Hready). split; [by eapply fence_signaled_remove|].
           split; [done|]. by eapply image_ready_remove.
Qed.

Lemma wait_image_blocks a d p i g st' :
  images_in_flight (data a) !! i = Some g -> g <> null_handle ->
  fence_signaled p g = false ->
  ~ cpu_step (mk a d p (AtWaitImage i)) st'.
Proof.
  intros Hg Hnn Hsig Hc. inversion Hc; subst.
  match goal with
  | H : image_ready _ _ _ = true |- _ =>
      unfold image_ready in H; rewrite Hg, Hsig, orb_false_r in H;
      by apply N.eqb_eq in H
  end.
Qed.

(** C1: in every state the frame loop reaches, only fences of the
    [MAX_FRAMES_IN_FLIGHT] = 2 frame slots are unsignaled (so at most 2),
    at most 2 submissions are pending, no two pending submissions are for
    the same swapchain image; a submission for image [i] happens only once
    the fence [images_in_flight[i]] is null or signaled, so no pending
    submission is for [i] then; and while that fence is non-null and
    unsignaled the CPU is blocked before the submission. *)
Theorem frames_in_flight_bounded n extent st :
  reachable n extent st ->
  let a := app st in
  let p := pending st in
  let fs := in_flight_fences (data a) in
  let iif := images_in_flight (data a) in
  (forall f, fence_signaled p f = false -> f ∈ fs) /\
  (length (filter (fun f => fence_signaled p f = false) fs)
     <= MAX_FRAMES_IN_FLIGHT)%nat /\
  (length p <= MAX_FRAMES_IN_FLIGHT)%nat /\
  NoDup (map snd p) /\
  (forall i, pc st = AtSubmit i ->
     image_ready p iif i = true /\ forall f, (f, i) ∉ p) /\
  (forall i g st', pc st = AtWaitImage i -> iif !! i = Some g ->
     g <> null_handle -> fence_signaled p g = false -> ~ cpu_step st st').
Proof.
  intros Hr. cbv zeta.
  destruct (in_flight_fences_shape n extent st Hr) as [Hfl Hnull].
  destruct (frame_loop_invariant n extent st Hr) as (_ & _ & Hpend & Hnd & Hpc).
  assert (Hunsig : forall f, fence_signaled (pending st) f = false ->
                     f ∈ in_flight_fences (data (app st))).
  { intros f Hf. destruct (fence_signaled (pending st) f) eqn:E; [done|].
    assert (exists j, (f, j) ∈ pending st) as [j Hj].
    { by apply fence_signaled_false. }
    by apply (Hpend f j). }
  split; [done|]. split.
  { rewrite <- Hfl. apply length_filter. }
  split.
  { rewrite <- Hfl, <- (length_map fst (pending st)).
    apply submseteq_length, NoDup_submseteq; [done|].
    intros f Hf. apply list_elem_of_In, in_map_iff in Hf as [[g k] [<- Hin]].
    apply list_elem_of_In in Hin. by apply (Hpend g k). }
  split.
  { apply nodup_snd; [done|]. intros [f j] [f' j'] Hx Hy. simpl. intros <-.
    destruct (Hpend f j Hx) as [_ H1]. destruct (Hpend f' j Hy) as [_ H2].
    congruence. }
  split.
  - intros i Hi. rewrite Hi in Hpc. destruct Hpc as (_ & _ & Hready).
    split; [done|]. intros f Hf. destruct (Hpend f i Hf) as [Hfs Hfi].
    unfold image_ready in Hready. rewrite Hfi in Hready.
    apply orb_true_iff in Hready as [Hn|Hs].
    + apply N.eqb_eq in Hn as ->. done.
    + by apply fence_signaled_spec with (j := i) in Hs.
  - intros i g st' Hi Hg Hnn Hsig. destruct st as [a d p c]. simpl in *. subst c.
    by apply (wait_image_blocks a d p i g st').
Qed.

Lemma frames_in_flight_bounded_witness :
  exists st,
    reachable 3 (800, 600)%Z st /\ length (pending st) = 1%nat /\
    pc st = AtWaitImage 0 /\ forall st', ~ cpu_step st st'.
Proof.
  pose proof (reach_init 3 (800, 600)%Z) as H0. vm_compute in H0.
  assert (H1 := H0). eapply reach_step in H1;
    [|left; apply step_wait_fence; reflexivity].
  assert (H2 := H1). eapply reach_step in H2;
    [|left; apply (step_acquire _ _ _ 0); vm_compute; lia].
  assert (H3 := H2). eapply reach_step in H3;
    [|left; apply step_wait_image; vm_compute; reflexivity].
  assert (H4 := H3). eapply reach_step in H4;
    [|left; apply (step_submit _ _ _ 0 []); reflexivity].
  vm_compute in H4.
  assert (H5 := H4). eapply reach_step in H5;
    [|left; apply (step_present_ok _ _ _ 0 (inl (tt, SUCCESS)) (tt, SUCCESS));
      [vm_compute; reflexivity | reflexivity]].
  vm_compute in H5.
  assert (H6 := H5). eapply reach_step in H6;
    [|left; apply step_wait_fence; vm_compute; reflexivity].
  assert (H7 := H6). eapply reach_step in H7;
    [|left; apply (step_acquire _ _ _ 0); vm_compute; lia].
  vm_compute in H7.
  eexists. split; [exact H7|]. split; [reflexivity|]. split; [reflexivity|].
  intros st'.
  exact (proj2 (proj2 (proj2 (proj2 (proj2
           (frames_in_flight_bounded 3 (800, 600)%Z _ H7))))) 0%nat 54%N st'
           eq_refl eq_refl ltac:(discriminate) eq_refl).
Defined.

End FramesInFlight.

(** ** Swapchain, sample-count and format choices *)

Section ChoiceProofs.

Import Choices.

Lemma find_first {A} (p : A -> bool) (l : list A) (x : A) :
  List.find p l = Some x <->
  exists l1 l2, l = l1 ++ x :: l2 /\ p x = true /\ forall y, y ∈ l1 -> p y = false.
Proof.
  induction l as [|a l IH]; simpl.
  - split; [discriminate|]. intros (l1 & l2 & H & _). by destruct l1.
  - destruct (p a) eqn:Ha.
    + split.
      * intros [= <-]. exists [], l. split; [done|]. split; [done|].
        intros y Hy. inversion Hy.
      * intros (l1 & l2 & Hl & Hx & Hy). destruct l1 as [|b l1].
        -- by injection Hl as -> _.
        -- injection Hl as -> _. rewrite Hy in Ha; [discriminate|].
           by apply elem_of_cons; left.
    + rewrite IH. split.
      * intros (l1 & l2 & -> & Hx & Hy). exists (a :: l1), l2.
        split; [done|]. split; [done|]. intros y Hin.
        apply elem_of_cons in Hin as [->|Hin]; [done|]. by apply Hy.
      * intros (l1 & l2 & Hl & Hx & Hy). destruct l1 as [|b l1].
        -- injection Hl as -> _. congruence.
        -- injection Hl as -> ->. exists l1, l2. split; [done|].
           split; [done|]. intros y Hin. apply Hy. by apply elem_of_cons; right.
Qed.

Lemma find_none_iff {A} (p : A -> bool) (l : list A) :
  List.find p l = None <-> forall y, y ∈ l -> p y = false.
Proof.
  induction l as [|a l IH]; simpl.
  - split; [intros _ y Hy; inversion Hy | done].
  - destruct (p a) eqn:Ha.
    + split; [discriminate|]. intros H. rewrite H in Ha; [discriminate|].
      by apply elem_of_cons; left.
    + rewrite IH. split.
      * intros H y Hy. apply elem_of_cons in Hy as [->|Hy]; [done|]. by apply H.
      * intros H y Hy. apply H. by apply elem_of_cons; right.
Qed.

(** The surface format is the preferred [B8G8R8A8_SRGB] /
    [SRGB_NONLINEAR] one whenever the surface offers it, otherwise the
    first one offered, and the call panics when none is offered; the
    present mode is [MAILBOX] when offered and [FIFO] otherwise, whether or
    not [FIFO] is in the list. *)
Theorem swapchain_format_and_mode_choice
    (formats : list SurfaceFormat) (present_modes : list Z) :
  let preferred := {| format := B8G8R8A8_SRGB; color_space := SRGB_NONLINEAR |} in
  (preferred ∈ formats -> get_swapchain_surface_format formats = Some preferred) /\
  (preferred ∉ formats -> get_swapchain_surface_format formats = head formats) /\
  (formats = [] -> get_swapchain_surface_format formats = None) /\
  (MAILBOX ∈ present_modes -> get_swapchain_present_mode present_modes = MAILBOX) /\
  (MAILBOX ∉ present_modes -> get_swapchain_present_mode present_modes = FIFO).
Proof.
  cbv zeta. unfold get_swapchain_surface_format, get_swapchain_present_mode.
  assert (Hpref : forall f, (format f =? B8G8R8A8_SRGB) && (color_space f =? SRGB_NONLINEAR)
                  = true <-> f = {| format := B8G8R8A8_SRGB; color_space := SRGB_NONLINEAR |}).
  { intros [fm cs]. simpl. rewrite andb_true_iff, !Z.eqb_eq. split.
    - by intros [-> ->].
    - by intros [= -> ->]. }
  split; [|split; [|split; [|split]]].
  - intros Hin. destruct (List.find _ formats) as [f|] eqn:E.
    + apply find_some in E as [_ Hf]. by apply Hpref in Hf as ->.
    + apply (find_none_iff _ formats) with (y := {| format := B8G8R8A8_SRGB;
                                                     color_space := SRGB_NONLINEAR |})
        in E; [|done].
      assert (false = true) by (rewrite <- E; by apply Hpref). discriminate.
  - intros Hnin. destruct (List.find _ formats) as [f|] eqn:E.
    + apply find_some in E as [Hin Hf]. apply Hpref in Hf as ->.
      exfalso. by apply Hnin, list_elem_of_In.
    + by destruct formats.
  - by intros ->.
  - intros Hin. destruct (List.find _ present_modes) as [m|] eqn:E.
    + by apply find_some in E as [_ ?%Z.eqb_eq].
    + apply (find_none_iff _ present_modes) with (y := MAILBOX) in E; [|done].
      by rewrite Z.eqb_refl in E.
  - intros Hnin. destruct (List.find _ present_modes) as [m|] eqn:E; [|done].
    apply find_some in E as [Hin ->%Z.eqb_eq]. exfalso. by apply Hnin, list_elem_of_In.
Qed.

(** When the surface reports a current extent (its width is not
    [u32::MAX]) that extent is used as is; otherwise each side is the
    window's size clamped to the surface's [min, max] range: it stays in
    that range when the range is not empty, equals the window's size when
    that fits, is the maximum when the size is above a non-empty range, is
    the minimum when the size is below it, and is the minimum when the
    range is empty. *)
Theorem get_swapchain_extent_clamps (size : Extent2D) (capabilities : SurfaceCapabilities) :
  let e := get_swapchain_extent size capabilities in
  let lo := min_image_extent capabilities in
  let hi := max_image_extent capabilities in
  (width (current_extent capabilities) <> U32_MAX -> e = current_extent capabilities) /\
  (width (current_extent capabilities) = U32_MAX ->
     (width lo <= width hi -> width lo <= width e <= width hi) /\
     (width lo <= width size <= width hi -> width e = width size) /\
     (width lo <= width hi -> width hi < width size -> width e = width hi) /\
     (width size < width lo -> width e = width lo) /\
     (width hi < width lo -> width e = width lo) /\
     (height lo <= height hi -> height lo <= height e <= height hi) /\
     (height lo <= height size <= height hi -> height e = height size) /\
     (height lo <= height hi -> height hi < height size -> height e = height hi) /\
     (height size < height lo -> height e = height lo) /\
     (height hi < height lo -> height e = height lo)).
Proof.
  cbv zeta. unfold get_swapchain_extent, clamp. split.
  - intros Hne. apply Z.eqb_neq in Hne. by rewrite Hne.
  - intros Heq. rewrite Heq, Z.eqb_refl. simpl. lia.
Qed.

(** For capabilities in the [u32] range: the image count is [None] (the
    [u32] addition overflows) exactly when [min_image_count] is
    [u32::MAX]; otherwise it is [min_image_count + 1] when
    [max_image_count] is 0 (no limit), and the smaller of
    [min_image_count + 1] and [max_image_count] otherwise; it is at least
    1, and at least [min_image_count] unless the surface reports a non-zero
    maximum below its minimum. *)
Theorem swapchain_image_count_bounds (capabilities : SurfaceCapabilities) :
  0 <= min_image_count capabilities <= U32_MAX ->
  0 <= max_image_count capabilities <= U32_MAX ->
  let lo := min_image_count capabilities in
  let hi := max_image_count capabilities in
  (lo = U32_MAX -> swapchain_image_count capabilities = None) /\
  (lo < U32_MAX ->
     exists c, swapchain_image_count capabilities = Some c /\
       c = (if hi =? 0 then lo + 1 else Z.min (lo + 1) hi) /\
       1 <= c /\ (hi = 0 \/ lo <= hi -> lo <= c)).
Proof.
  intros Hlo Hhi. cbv zeta. unfold swapchain_image_count. split.
  - intros ->. done.
  - intros Hlt. destruct (Z.ltb_spec U32_MAX (min_image_count capabilities + 1)); [lia|].
    destruct (Z.eqb_spec (max_image_count capabilities) 0) as [H0|H0]; simpl.
    + eexists. split; [reflexivity|]. lia.
    + destruct (Z.ltb_spec (max_image_count capabilities) (min_image_count capabilities + 1));
        (eexists; split; [reflexivity|]); lia.
Qed.

Lemma swapchain_image_count_bounds_witness :
  let caps := {| current_extent := {| width := 800; height := 600 |};
                 min_image_extent := {| width := 1; height := 1 |};
                 max_image_extent := {| width := 4096; height := 4096 |};
                 min_image_count := 2; max_image_count := 3 |} in
  (0 <= min_image_count caps <= U32_MAX /\ 0 <= max_image_count caps <= U32_MAX) /\
  (min_image_count caps < U32_MAX ->
     exists c, swapchain_image_count caps = Some c /\
       c = (if max_image_count caps =? 0 then min_image_count caps + 1
            else Z.min (min_image_count caps + 1) (max_image_count caps)) /\
       1 <= c /\ (max_image_count caps = 0 \/ min_image_count caps <= max_image_count caps ->
                  min_image_count caps <= c)).
Proof.
  intros caps. split; [unfold U32_MAX; simpl; lia|].
  apply (swapchain_image_count_bounds caps); unfold U32_MAX; simpl; lia.
Defined.

Lemma contains_land (a b k : N) :
  Memory.contains (N.land a b) k = Memory.contains a k && Memory.contains b k.
Proof.
  apply eq_true_iff_eq. rewrite andb_true_iff, !contains_superset. split.
  - intros H. split; intros j Hj; specialize (H j Hj); rewrite N.land_spec in H;
      apply andb_prop in H as [? ?]; done.
  - intros [Ha Hb] j Hj. rewrite N.land_spec, Ha, Hb; done.
Qed.

(** The MSAA sample count is the largest of [_64, _32, ..., _2] supported
    by both the color and the depth attachments, or [_1] when none is. *)
Theorem get_max_msaa_samples_largest (color_counts depth_counts : N) :
  let s := get_max_msaa_samples color_counts depth_counts in
  let both k := Memory.contains color_counts k && Memory.contains depth_counts k in
  (s = 1%N \/ (s ∈ sample_candidates /\ both s = true)) /\
  (forall k, k ∈ sample_candidates -> both k = true -> (k <= s)%N).
Proof.
  cbv zeta. unfold get_max_msaa_samples, sample_candidates. simpl.
  rewrite !contains_land.
  destruct (Memory.contains color_counts 64 && Memory.contains depth_counts 64) eqn:E64;
    [split; [right; split; [set_solver | done] | intros k Hk _; repeat (apply elem_of_cons in Hk as [->|Hk]; [lia|]); set_solver]|].
  destruct (Memory.contains color_counts 32 && Memory.contains depth_counts 32) eqn:E32;
    [split; [right; split; [set_solver | done] | intros k Hk Hb; repeat (apply elem_of_cons in Hk as [->|Hk]; [try congruence; lia|]); set_solver]|].
  destruct (Memory.contains color_counts 16 && Memory.contains depth_counts 16) eqn:E16;
    [split; [right; split; [set_solver | done] | intros k Hk Hb; repeat (apply elem_of_cons in Hk as [->|Hk]; [try congruence; lia|]); set_solver]|].
  destruct (Memory.contains color_counts 8 && Memory.contains depth_counts 8) eqn:E8;
    [split; [right; split; [set_solver | done] | intros k Hk Hb; repeat (apply elem_of_cons in Hk as [->|Hk]; [try congruence; lia|]); set_solver]|].
  destruct (Memory.contains color_counts 4 && Memory.contains depth_counts 4) eqn:E4;
    [split; [right; split; [set_solver | done] | intros k Hk Hb; repeat (apply elem_of_cons in Hk as [->|Hk]; [try congruence; lia|]); set_solver]|].
  destruct (Memory.contains color_counts 2 && Memory.contains depth_counts 2) eqn:E2;
    [split; [right; split; [set_solver | done] | intros k Hk Hb; repeat (apply elem_of_cons in Hk as [->|Hk]; [try congruence; lia|]); set_solver]|].
  split; [by left|]. intros k Hk Hb.
  repeat (apply elem_of_cons in Hk as [->|Hk]; [congruence|]). set_solver.
Qed.

(** With [OPTIMAL] tiling, [get_supported_format] returns the first
    candidate whose optimal-tiling features contain the requested ones, and
    fails exactly when no candidate has them; with a tiling other than
    [LINEAR] and [OPTIMAL] it always fails. So [get_depth_format] picks
    [D32_SFLOAT] whenever it supports depth-stencil attachments. *)
Theorem get_supported_format_first (properties : Z -> FormatProperties)
    (candidates : list Z) (features : N) :
  let ok g := Memory.contains (optimal_tiling_features (properties g)) features in
  (forall f, get_supported_format properties candidates OPTIMAL features = Some f <->
     exists l1 l2, candidates = l1 ++ f :: l2 /\ ok f = true /\
       forall g, g ∈ l1 -> ok g = false) /\
  (get_supported_format properties candidates OPTIMAL features = None <->
     forall g, g ∈ candidates -> ok g = false) /\
  get_supported_format properties candidates DRM_FORMAT_MODIFIER_EXT features = None /\
  (Memory.contains (optimal_tiling_features (properties D32_SFLOAT))
     DEPTH_STENCIL_ATTACHMENT = true ->
   get_depth_format properties = Some D32_SFLOAT).
Proof.
  cbv zeta. unfold get_depth_format, get_supported_format.
  pose (ok := fun g => Memory.contains (optimal_tiling_features (properties g)) features).
  split; [intros f; exact (find_first ok candidates f)|].
  split; [exact (find_none_iff ok candidates)|]. split.
  - by apply find_none_iff.
  - intros H. simpl. by rewrite H.
Qed.

End ChoiceProofs.


(** ** The index and vertex lists of the deduplication *)

Section DedupProofs.

Import Dedup.

Lemma hash_words_inj (a b : Vertex) : hash_words a = hash_words b -> a = b.
Proof.
  destruct a as [[? ? ?] [? ? ?] [? ?] [? ? ?]], b as [[? ? ?] [? ? ?] [? ?] [? ? ?]].
  simpl. intros H. by simplify_eq.
Qed.

Lemma unique_vertices_get_some unique k i :
  unique_vertices_get unique k = Some i -> (k, i) ∈ unique /\ vertex_eq k k = true.
Proof.
  unfold unique_vertices_get.
  destruct (List.find _ unique) as [[k' i']|] eqn:E; simpl; [|discriminate].
  intros [= <-]. apply find_some in E as [Hin Hp]. simpl in Hp.
  apply andb_prop in Hp as [Hh Heq]. apply bool_decide_eq_true in Hh.
  apply hash_words_inj in Hh as ->. split; [by apply list_elem_of_In|done].
Qed.

Lemma unique_vertices_get_none unique k i :
  unique_vertices_get unique k = None -> (k, i) ∈ unique -> vertex_eq k k = false.
Proof.
  unfold unique_vertices_get.
  destruct (List.find _ unique) eqn:E; simpl; [discriminate|]. intros _ Hin.
  apply (find_none_iff _ unique) with (y := (k, i)) in E; [|done].
  simpl in E. rewrite bool_decide_true in E; done.
Qed.

Lemma dedup_loop_spec unique vertices indices stream :
  (forall e, e ∈ unique -> vertices !! snd e = Some (fst e)) ->
  (forall i v, vertices !! i = Some v -> (v, i) ∈ unique) ->
  let '(vertices', indices') := dedup_loop unique vertices indices stream in
  exists tail new,
    vertices' = vertices ++ tail /\ indices' = indices ++ new /\
    (length tail <= length stream)%nat /\
    map (fun i => vertices' !! i) new = map Some stream /\
    (forall w, w ∈ vertices' <-> w ∈ vertices \/ w ∈ stream) /\
    (NoDup vertices -> (forall w, w ∈ stream -> vertex_eq w w = true) ->
     NoDup vertices').
Proof.
  revert unique vertices indices.
  induction stream as [|w stream IH]; intros unique vertices indices H1 H2; simpl.
  - exists [], []. rewrite !app_nil_r. split; [done|]. split; [done|].
    split; [simpl; lia|]. split; [done|]. split; [clear; set_solver|auto].
  - destruct (unique_vertices_get unique w) as [index|] eqn:Eg.
    + apply unique_vertices_get_some in Eg as [Hin Hrefl].
      specialize (IH unique vertices (indices ++ [index]) H1 H2).
      destruct (dedup_loop _ _ _ stream) as [vs' is'].
      destruct IH as (tail & new & -> & -> & Hlen & Hmap & Hset & Hnd).
      exists tail, (index :: new). rewrite <- app_assoc. split; [done|].
      split; [done|]. split; [simpl; lia|]. split.
      * simpl. rewrite Hmap. f_equal. apply lookup_app_l_Some.
        by apply (H1 (w, index)).
      * assert (Hw : w ∈ vertices)
          by (apply (list_elem_of_lookup_2 _ index); by apply (H1 (w, index))).
        clear H1 H2 Hmap. split; [intros u; rewrite Hset; set_solver|].
        intros Hv Hs. apply Hnd; [done|]. intros u Hu. apply Hs. set_solver.
    + specialize (IH ((w, length vertices) :: unique) (vertices ++ [w])
                    (indices ++ [length vertices])).
      destruct (dedup_loop _ _ _ stream) as [vs' is'].
      destruct IH as (tail & new & -> & -> & Hlen & Hmap & Hset & Hnd).
      * intros e He. apply elem_of_cons in He as [->|He]; simpl.
        -- rewrite lookup_app_r by lia. by rewrite Nat.sub_diag.
        -- apply lookup_app_l_Some. by apply H1.
      * intros i v Hi. apply lookup_app_Some in Hi as [Hi|[Hge Hi]].
        -- apply elem_of_cons. right. by apply H2.
        -- apply list_lookup_singleton_Some in Hi as [Hi <-].
           replace i with (length vertices) by lia. by apply elem_of_cons; left.
      * exists (w :: tail), (length vertices :: new).
        split; [by rewrite <- app_assoc|]. split; [by rewrite <- app_assoc|].
        split; [simpl; lia|]. split.
        -- simpl. rewrite Hmap. f_equal.
           apply lookup_app_l_Some. rewrite lookup_app_r by lia.
           by rewrite Nat.sub_diag.
        -- split; [intros u; rewrite Hset; clear; set_solver|].
           intros Hv Hs. apply Hnd; [|intros u Hu; apply Hs; clear - Hu; set_solver].
           apply NoDup_app. split; [done|]. split; [|apply NoDup_singleton].
           intros u Hu Hw. apply list_elem_of_singleton in Hw as ->.
           apply list_elem_of_lookup in Hu as [i Hi].
           pose proof (unique_vertices_get_none unique w i Eg (H2 i w Hi)) as Hf.
           rewrite Hs in Hf; [discriminate | clear; set_solver].
Qed.

Lemma f32_eq_sym (a b : f32) : f32_eq a b = f32_eq b a.
Proof.
  unfold f32_eq.
  destruct (f32_is_nan a), (f32_is_nan b), (f32_is_zero a), (f32_is_zero b);
    simpl; auto using Z.eqb_sym.
Qed.

Lemma vertex_eq_sym (a b : Vertex) : vertex_eq a b = vertex_eq b a.
Proof.
  destruct a as [[a1 a2 a3] [a4 a5 a6] [a7 a8] [a9 a10 a11]],
           b as [[b1 b2 b3] [b4 b5 b6] [b7 b8] [b9 b10 b11]].
  unfold vertex_eq, vec3_eq, vec2_eq. cbn [pos color tex_coord normal x y z u v].
  rewrite (f32_eq_sym a1 b1), (f32_eq_sym a2 b2), (f32_eq_sym a3 b3),
    (f32_eq_sym a4 b4), (f32_eq_sym a5 b5), (f32_eq_sym a6 b6),
    (f32_eq_sym a7 b7), (f32_eq_sym a8 b8), (f32_eq_sym a9 b9),
    (f32_eq_sym a10 b10), (f32_eq_sym a11 b11).
  reflexivity.
Qed.

Lemma f32_eq_nonzero (a b : f32) :
  f32_eq a b = true -> f32_is_zero a = false -> a = b.
Proof.
  unfold f32_eq. intros H Hz. rewrite Hz, andb_false_l in H.
  destruct (f32_is_nan a || f32_is_nan b); [discriminate|].
  by apply Z.eqb_eq.
Qed.

Lemma vertex_eq_zero_free (w v : Vertex) :
  vertex_eq w v = true -> zero_free w = true -> w = v.
Proof.
  destruct w as [[a1 a2 a3] [a4 a5 a6] [a7 a8] [a9 a10 a11]],
           v as [[b1 b2 b3] [b4 b5 b6] [b7 b8] [b9 b10 b11]].
  unfold vertex_eq, vec3_eq, vec2_eq, zero_free, hash_words.
  cbn [pos color tex_coord normal x y z u v forallb]. intros H Z.
  rewrite andb_true_r in Z. repeat rewrite andb_true_iff in H, Z.
  repeat match goal with Hc : _ /\ _ |- _ => destruct Hc end.
  repeat f_equal; apply f32_eq_nonzero; try assumption; by apply negb_true_iff.
Qed.

Lemma unique_vertices_get_ok : hashmap_get_ok unique_vertices_get.
Proof.
  intros unique k. unfold unique_vertices_get. split.
  - intros i. destruct (List.find _ unique) as [e|] eqn:E; simpl; [|discriminate].
    intros [= <-]. apply find_some in E as [Hin Hp].
    apply andb_prop in Hp as [_ Heq]. exists e. rewrite vertex_eq_sym.
    split; [by apply list_elem_of_In|done].
  - destruct (List.find _ unique) eqn:E; simpl; [discriminate|].
    intros _ e He Hh. rewrite vertex_eq_sym.
    pose proof (find_none _ _ E e (proj1 (list_elem_of_In _ _) He)) as Hf.
    simpl in Hf. by rewrite bool_decide_true in Hf.
Qed.

Lemma merging_get_ok : hashmap_get_ok merging_get.
Proof.
  intros unique k. unfold merging_get. split.
  - intros i. destruct (List.find _ unique) as [e|] eqn:E; simpl; [|discriminate].
    intros [= <-]. apply find_some in E as [Hin Hp]. exists e.
    split; [by apply list_elem_of_In|done].
  - destruct (List.find _ unique) eqn:E; simpl; [discriminate|].
    intros _ e He _.
    exact (find_none _ _ E e (proj1 (list_elem_of_In _ _) He)).
Qed.

Lemma dedup_loop_by_spec get (Hget : hashmap_get_ok get)
    unique vertices indices stream :
  (forall e, e ∈ unique -> vertices !! snd e = Some (fst e)) ->
  let '(vertices', indices') := dedup_loop_by get unique vertices indices stream in
  exists tail new,
    vertices' = vertices ++ tail /\ indices' = indices ++ new /\
    (length tail <= length stream)%nat /\ length new = length stream /\
    (forall j w, stream !! j = Some w ->
       exists i v, new !! j = Some i /\ vertices' !! i = Some v /\
                   (v = w \/ vertex_eq w v = true)) /\
    (forall w, w ∈ tail -> w ∈ stream).
Proof.
  revert unique vertices indices.
  induction stream as [|w stream IH]; intros unique vertices indices H1; simpl.
  - exists [], []. rewrite !app_nil_r. split; [done|]. split; [done|].
    split; [simpl; lia|]. split; [done|]. split.
    + intros j w Hj. by rewrite lookup_nil in Hj.
    + intros w Hw. inversion Hw.
  - destruct (get unique w) as [index|] eqn:Eg.
    + destruct (proj1 (Hget unique w) index Eg) as (e & Hin & Heq & Hidx).
      specialize (IH unique vertices (indices ++ [index]) H1).
      destruct (dedup_loop_by _ _ _ _ stream) as [vs' is'].
      destruct IH as (tail & new & -> & -> & Hlen & Hnew & Hlook & Htail).
      exists tail, (index :: new). split; [done|].
      split; [by rewrite <- app_assoc|]. split; [simpl; lia|].
      split; [simpl; lia|]. split.
      * intros [|j] u Hj; simpl in Hj.
        -- injection Hj as <-. exists index, (fst e). split; [done|].
           split; [|by right]. apply lookup_app_l_Some. rewrite <- Hidx. by apply H1.
        -- destruct (Hlook j u Hj) as (i & v & Hi & Hv & Hor).
           exists i, v. by split.
      * intros u Hu. apply elem_of_cons. right. by apply Htail.
    + specialize (IH ((w, length vertices) :: unique) (vertices ++ [w])
                    (indices ++ [length vertices])).
      destruct (dedup_loop_by _ _ _ _ stream) as [vs' is'].
      destruct IH as (tail & new & -> & -> & Hlen & Hnew & Hlook & Htail).
      * intros e He. apply elem_of_cons in He as [->|He]; simpl.
        -- rewrite lookup_app_r by lia. by rewrite Nat.sub_diag.
        -- apply lookup_app_l_Some. by apply H1.
      * exists (w :: tail), (length vertices :: new).
        split; [by rewrite <- app_assoc|]. split; [by rewrite <- app_assoc|].
        split; [simpl; lia|]. split; [simpl; lia|]. split.
        -- intros [|j] u Hj; simpl in Hj.
           ++ injection Hj as <-. exists (length vertices), w.
              split; [done|]. split; [|by left].
              apply lookup_app_l_Some. rewrite lookup_app_r by lia.
              by rewrite Nat.sub_diag.
           ++ destruct (Hlook j u Hj) as (i & v & Hi & Hv & Hor).
              exists i, v. by split.
        -- intros u Hu. apply elem_of_cons in Hu as [->|Hu];
             apply elem_of_cons; [by left | right; by apply Htail].
Qed.

(** Whatever the hash tags of the table do, deduplication loses nothing
    that [==] can tell: there is one index per input vertex, and the
    vertex each index points to compares [==] to the input vertex, or is
    that very vertex; it is the input vertex bit for bit when the input
    has no signed-zero component. The vertex list holds only input
    vertices and is no longer than the stream. *)
Theorem dedup_by_reconstructs_stream get (Hget : hashmap_get_ok get)
    (stream : list Vertex) :
  let '(vertices, indices) := dedup_by get stream in
  length indices = length stream /\
  (forall j w, stream !! j = Some w ->
     exists i v, indices !! j = Some i /\ vertices !! i = Some v /\
       (v = w \/ vertex_eq w v = true) /\ (zero_free w = true -> v = w)) /\
  (forall v, v ∈ vertices -> v ∈ stream) /\
  (length vertices <= length stream)%nat.
Proof.
  unfold dedup_by.
  pose proof (dedup_loop_by_spec get Hget [] [] [] stream) as H.
  destruct (dedup_loop_by get [] [] [] stream) as [vs is].
  destruct H as (tail & new & -> & -> & Hlen & Hnew & Hlook & Htail).
  - intros e He. inversion He.
  - simpl in *. split; [done|]. split; [|split; [exact Htail | done]].
    intros j w Hj. destruct (Hlook j w Hj) as (i & v & Hi & Hv & Hor).
    exists i, v. split; [done|]. split; [done|]. split; [done|].
    intros Hz. destruct Hor as [->|Hor]; [done|].
    symmetry. by apply vertex_eq_zero_free.
Qed.

Lemma dedup_by_reconstructs_stream_witness :
  let w := {| pos := vec3 ONE ZERO ZERO; color := vec3 ONE ONE ONE;
              tex_coord := vec2 ZERO ONE; normal := vec3 ZERO ZERO ONE |} in
  hashmap_get_ok merging_get /\
  let '(vertices, indices) := dedup_by merging_get [w; w] in
  length indices = length [w; w] /\
  (forall j w', [w; w] !! j = Some w' ->
     exists i v, indices !! j = Some i /\ vertices !! i = Some v /\
       (v = w' \/ vertex_eq w' v = true) /\ (zero_free w' = true -> v = w')) /\
  (forall v, v ∈ vertices -> v ∈ [w; w]) /\
  (length vertices <= length [w; w])%nat.
Proof.
  intros w. split; [exact merging_get_ok|].
  exact (dedup_by_reconstructs_stream merging_get merging_get_ok [w; w]).
Defined.

(** When no vertex of the stream has a NaN component (each compares
    [==] to itself), the vertex list has no duplicates. *)
Theorem dedup_nan_free_nodup (stream : list Vertex) :
  (forall w, w ∈ stream -> vertex_eq w w = true) ->
  NoDup (fst (dedup stream)).
Proof.
  intros Hs. unfold dedup.
  pose proof (dedup_loop_spec [] [] [] stream) as H.
  destruct (dedup_loop [] [] [] stream) as [vs is].
  destruct H as (tail & new & -> & -> & _ & _ & _ & Hnd).
  - intros e He. inversion He.
  - intros i v Hi. inversion Hi.
  - simpl. apply Hnd; [constructor | done].
Qed.

Lemma dedup_nan_free_nodup_witness :
  let w := {| pos := vec3 ONE ZERO ZERO; color := vec3 ONE ONE ONE;
              tex_coord := vec2 ZERO ONE; normal := vec3 ZERO ZERO ONE |} in
  (forall u, u ∈ [w; w] -> vertex_eq u u = true) /\ NoDup (fst (dedup [w; w])).
Proof.
  intros w.
  assert (Hw : forall u, u ∈ [w; w] -> vertex_eq u u = true).
  { intros u Hu. apply elem_of_cons in Hu as [->|Hu];
      [|apply list_elem_of_singleton in Hu as ->]; reflexivity. }
  split; [exact Hw|]. exact (dedup_nan_free_nodup [w; w] Hw).
Defined.

End DedupProofs.

(** ** Layout transitions of the mip chain *)

Section MipChainProofs.

Import Mipmaps MipChain.

Lemma level_barriers_app k l1 l2 :
  level_barriers k (l1 ++ l2) = level_barriers k l1 ++ level_barriers k l2.
Proof. unfold level_barriers. by rewrite omap_app. Qed.

Lemma mip_loop_level_barriers (k i : Z) (fuel : nat) (w h : Z) :
  level_barriers k (mip_loop i fuel w h) =
  if (i - 1 <=? k) && (k <? i - 1 + Z.of_nat fuel)
  then [(TRANSFER_DST_OPTIMAL, TRANSFER_SRC_OPTIMAL);
        (TRANSFER_SRC_OPTIMAL, SHADER_READ_ONLY_OPTIMAL)]
  else [].
Proof.
  revert i w h. induction fuel as [|fuel IH]; intros i w h.
  - change (mip_loop i 0 w h) with (@nil Command).
    replace (i - 1 + Z.of_nat 0) with (i - 1) by lia.
    destruct (Z.leb_spec (i - 1) k), (Z.ltb_spec k (i - 1)); simpl; done || lia.
  - cbn [mip_loop]. rewrite level_barriers_app, IH.
    unfold level_barriers. cbn.
    destruct (Z.eqb_spec (i - 1) k) as [<-|Hne].
    + rewrite (proj2 (Z.leb_le (i - 1) (i - 1))) by lia.
      rewrite (proj2 (Z.ltb_lt (i - 1) (i - 1 + Z.of_nat (S fuel)))) by lia.
      destruct (Z.leb_spec (i + 1 - 1) (i - 1)); [lia|]. done.
    + destruct (Z.leb_spec (i + 1 - 1) k), (Z.ltb_spec k (i + 1 - 1 + Z.of_nat fuel)),
        (Z.leb_spec (i - 1) k), (Z.ltb_spec k (i - 1 + Z.of_nat (S fuel)));
        simpl; try done; lia.
Qed.

(** With a format that supports linear filtering and at least one level,
    [generate_mipmaps] records [3 (L - 1) + 1] commands, and every level
    [k] of the [L] levels goes through exactly the barriers
    [TRANSFER_DST -> TRANSFER_SRC -> SHADER_READ_ONLY] ([k < L - 1]) or
    [TRANSFER_DST -> SHADER_READ_ONLY] (the last level), so every level
    ends up readable by shaders; no barrier touches a level outside the
    chain. Without linear filtering it fails and records nothing. *)
Theorem generate_mipmaps_level_layouts (width height mip_levels : Z)
    (cmds : list Command) :
  1 <= mip_levels ->
  generate_mipmaps true width height mip_levels = inl cmds ->
  generate_mipmaps false width height mip_levels
    = inr FormatDoesNotSupportLinearBlitting /\
  length cmds = (3 * Z.to_nat (mip_levels - 1) + 1)%nat /\
  (forall k, 0 <= k < mip_levels ->
     level_barriers k cmds =
       if k <? mip_levels - 1
       then [(TRANSFER_DST_OPTIMAL, TRANSFER_SRC_OPTIMAL);
             (TRANSFER_SRC_OPTIMAL, SHADER_READ_ONLY_OPTIMAL)]
       else [(TRANSFER_DST_OPTIMAL, SHADER_READ_ONLY_OPTIMAL)]) /\
  (forall k, k < 0 \/ mip_levels <= k -> level_barriers k cmds = []).
Proof.
  intros HL Hg. unfold generate_mipmaps in Hg. simpl in Hg. injection Hg as <-.
  split; [done|]. split.
  { rewrite length_app. simpl.
    assert (Hlen : forall i fuel w h, length (mip_loop i fuel w h) = (3 * fuel)%nat).
    { intros i fuel. revert i. induction fuel as [|fuel IH]; intros i w h; [done|].
      cbn [mip_loop]. rewrite length_app, IH. simpl. lia. }
    rewrite Hlen. lia. }
  assert (Hk : forall k, level_barriers k
                 (mip_loop 1 (Z.to_nat (mip_levels - 1)) width height ++
                  [Barrier (mip_levels - 1) TRANSFER_DST_OPTIMAL SHADER_READ_ONLY_OPTIMAL])
               = (if (0 <=? k) && (k <? mip_levels - 1)
                  then [(TRANSFER_DST_OPTIMAL, TRANSFER_SRC_OPTIMAL);
                        (TRANSFER_SRC_OPTIMAL, SHADER_READ_ONLY_OPTIMAL)]
                  else []) ++
                 (if mip_levels - 1 =? k
                  then [(TRANSFER_DST_OPTIMAL, SHADER_READ_ONLY_OPTIMAL)] else [])).
  { intros k. rewrite level_barriers_app, mip_loop_level_barriers.
    rewrite Z2Nat.id by lia. replace (1 - 1) with 0 by lia.
    replace (0 + (mip_levels - 1)) with (mip_levels - 1) by lia.
    unfold level_barriers. cbn. by destruct (mip_levels - 1 =? k). }
  split.
  - intros k Hr. rewrite Hk.
    destruct (Z.leb_spec 0 k), (Z.ltb_spec k (mip_levels - 1)),
      (Z.eqb_spec (mip_levels - 1) k); simpl; try done; lia.
  - intros k Hr. rewrite Hk.
    destruct (Z.leb_spec 0 k), (Z.ltb_spec k (mip_levels - 1)),
      (Z.eqb_spec (mip_levels - 1) k); simpl; try done; lia.
Qed.

Lemma generate_mipmaps_level_layouts_witness :
  1 <= 11 /\
  length (match generate_mipmaps true 1024 768 11 with inl c => c | inr _ => [] end)
    = (3 * Z.to_nat (11 - 1) + 1)%nat.
Proof.
  split; [lia|].
  exact (proj1 (proj2 (generate_mipmaps_level_layouts 1024 768 11 _
                         ltac:(lia) eq_refl))).
Defined.

End MipChainProofs.

(** ** What the application owns *)

Section OwnershipProofs.

Import AppModel Footprint FrameLoop Ownership.

Lemma grows_refl dev : grows dev dev [].
Proof.
  split; [intros x Hx; by left|]. split; [by intros k Hk _|]. split; [done | lia].
Qed.

Lemma grows_trans d1 d2 d3 hs hs' :
  grows d1 d2 hs -> grows d2 d3 hs' -> grows d1 d3 (hs ++ hs').
Proof.
  intros (H1 & M1 & L1 & N1) (H2 & M2 & L2 & N2).
  split; [|split; [|split; [auto | lia]]].
  - intros x Hx. destruct (H2 x Hx) as [Hy|Hy].
    + destruct (H1 x Hy); [by left | right; set_solver].
    + right. set_solver.
  - intros k Hk Hlt. apply M2; [by apply M1 | lia].
Qed.

Lemma grows_weaken d1 d2 hs hs' :
  grows d1 d2 hs -> (forall h, h ∈ hs -> h ∈ hs') -> grows d1 d2 hs'.
Proof.
  intros (H & M & L & N) Hsub. split; [|done]. intros x Hx.
  destruct (H x Hx); [by left | right; auto].
Qed.

Lemma grows_memory d1 d2 hs k :
  grows d1 d2 hs -> is_Some (memory d1 !! k) -> (k < next_handle d1)%N ->
  is_Some (memory d2 !! k).
Proof. intros (_ & M & _). apply M. Qed.

Lemma grows_next d1 d2 hs :
  grows d1 d2 hs -> (next_handle d1 <= next_handle d2)%N.
Proof. intros (_ & _ & _ & N). exact N. Qed.

Lemma create_object_grows dev h dev' :
  create_object dev = (h, dev') -> grows dev dev' [h].
Proof.
  intros [= <- <-]. split; [|split; [by intros k Hk _|split; [|simpl; lia]]].
  - intros x Hx. simpl in Hx.
    apply elem_of_cons in Hx as [->|Hx]; [right; set_solver | by left].
  - intros Hm k Hk. simpl. apply elem_of_cons. right. by apply Hm.
Qed.

Lemma create_objects_grows n dev hs dev' :
  create_objects n dev = (hs, dev') -> grows dev dev' hs.
Proof.
  revert dev hs. induction n as [|n IH]; intros dev hs; cbn [create_objects].
  - intros [= <- <-]. apply grows_refl.
  - destruct (create_object dev) as [h d1] eqn:E1.
    destruct (create_objects n d1) as [hs1 d2] eqn:E2. intros [= <- <-].
    apply (grows_trans dev d1 _ [h] hs1); [by eapply create_object_grows | by apply IH].
Qed.

Lemma allocate_memory_grows size dev h dev' :
  allocate_memory size dev = (h, dev') ->
  grows dev dev' [h] /\ is_Some (memory dev' !! h) /\ (h < next_handle dev')%N.
Proof.
  unfold allocate_memory. destruct (create_object dev) as [h1 d1] eqn:E.
  pose proof E as E'. injection E' as <- <-.
  intros [= <- <-]. apply create_object_grows in E as (Hl & Hm & Hml & Hn).
  split; [split; [|split; [|split]]|split].
  - exact Hl.
  - intros k Hk Hlt. simpl. destruct (decide (k = next_handle dev)) as [->|Hne].
    + rewrite lookup_insert_eq. by eexists.
    + rewrite lookup_insert_ne by done. by apply Hm.
  - intros Hd k Hk. simpl in *. destruct (decide (k = next_handle dev)) as [->|Hne].
    + apply elem_of_cons. by left.
    + rewrite lookup_insert_ne in Hk by done. by apply Hml.
  - exact Hn.
  - simpl. rewrite lookup_insert_eq. by eexists.
  - simpl. lia.
Qed.

Lemma create_swapchain_grows n dev sc images dev' :
  create_swapchain n dev = ((sc, images), dev') -> grows dev dev' (sc :: images).
Proof.
  unfold create_swapchain.
  destruct (create_object dev) as [h d1] eqn:E1.
  destruct (create_objects n d1) as [hs d2] eqn:E2. intros [= <- <- <-].
  apply (grows_trans dev d1 _ [h] hs);
    [by eapply create_object_grows | by eapply create_objects_grows].
Qed.

Lemma create_attachment_objects_grows dev a b c dev' :
  create_attachment_objects dev = ((a, b, c), dev') -> grows dev dev' [a; b; c].
Proof.
  unfold create_attachment_objects.
  destruct (create_object dev) as [h1 d1] eqn:E1.
  destruct (allocate_memory 0 d1) as [h2 d2] eqn:E2.
  destruct (create_object d2) as [h3 d3] eqn:E3. intros [= <- <- <- <-].
  apply (grows_trans dev d1 _ [h1] [h2; h3]); [by eapply create_object_grows|].
  apply (grows_trans d1 d2 _ [h2] [h3]);
    [by eapply allocate_memory_grows | by eapply create_object_grows].
Qed.

Lemma create_uniform_buffers_grows n dev bs ms dev' :
  create_uniform_buffers n dev = ((bs, ms), dev') ->
  grows dev dev' (bs ++ ms) /\ length ms = n /\
  forall m, m ∈ ms -> is_Some (memory dev' !! m) /\ (m < next_handle dev')%N.
Proof.
  revert dev bs ms. induction n as [|n IH]; intros dev bs ms;
    cbn [create_uniform_buffers].
  - intros [= <- <- <-]. split; [apply grows_refl|]. split; [done|].
    intros m Hm. inversion Hm.
  - destruct (create_object dev) as [b d1] eqn:E1.
    destruct (allocate_memory UBO_SIZE d1) as [m d2] eqn:E2.
    destruct (create_uniform_buffers n d2) as [[bs1 ms1] d3] eqn:E3.
    intros [= <- <- <-].
    apply allocate_memory_grows in E2 as (G2 & Hm2 & Hlt2).
    destruct (IH _ _ _ E3) as (G3 & Hlen & Hms).
    split; [|split; [simpl; lia|]].
    + apply (grows_weaken _ _ ([b] ++ [m] ++ (bs1 ++ ms1))).
      * apply (grows_trans dev d1 _ [b]); [by eapply create_object_grows|].
        by apply (grows_trans d1 d2 _ [m]).
      * intros h. simpl. clear. set_solver.
    + intros m' Hm'. apply elem_of_cons in Hm' as [->|Hm']; [|by apply Hms].
      split; [by apply (grows_memory d2 d3 _ _ G3)|].
      pose proof (grows_next _ _ _ G3). lia.
Qed.

Lemma foldr_delete_lookup (m : gmap handle (list Z)) (hs : list handle) k :
  foldr delete m hs !! k = if decide (k ∈ hs) then None else m !! k.
Proof.
  induction hs as [|h hs IH]; simpl; [done|].
  destruct (decide (k = h)) as [->|Hne].
  - rewrite lookup_delete_eq. rewrite decide_True; [done|]. apply elem_of_cons. by left.
  - rewrite lookup_delete_ne by done. rewrite IH.
    destruct (decide (k ∈ hs)) as [Hin|Hin], (decide (k ∈ h :: hs)) as [Hin'|Hin'];
      try done; exfalso; set_solver.
Qed.

Lemma destroy_objects_mem_live hs dev :
  mem_live dev -> mem_live (destroy_objects hs dev).
Proof.
  intros H k Hk. unfold destroy_objects in *. simpl in *.
  rewrite foldr_delete_lookup in Hk. case_decide as Hin; [by destruct Hk|].
  apply list_elem_of_filter. split; [done|]. by apply H.
Qed.

(** Destroying objects handed out after [dev] keeps growth from [dev]. *)
Lemma destroy_objects_grows dev d hs temps :
  grows dev d hs -> (forall t, t ∈ temps -> (next_handle dev <= t)%N) ->
  grows dev (destroy_objects temps d) (filter (fun h => h ∉ temps) hs).
Proof.
  intros (H & M & L & N) Ht. split; [|split; [|split]].
  - intros x Hx. unfold destroy_objects in Hx. simpl in Hx.
    apply list_elem_of_filter in Hx as [Hn Hx].
    destruct (H x Hx) as [Hy|Hy]; [by left|].
    right. by apply list_elem_of_filter.
  - intros k Hk Hlt. unfold destroy_objects. simpl.
    rewrite foldr_delete_lookup. case_decide as Hin; [|by apply M].
    specialize (Ht k Hin). lia.
  - intros Hd. apply destroy_objects_mem_live. by apply L.
  - exact N.
Qed.

Ltac grows_base :=
  first [ eapply create_object_grows; eassumption
        | eapply (fun s d h d' H => proj1 (allocate_memory_grows s d h d' H));
          eassumption ].

Lemma texture_load_from_file_grows dev t dev' :
  texture_load_from_file dev = (t, dev') -> grows dev dev' (texture_handles t).
Proof.
  unfold texture_load_from_file. cbv zeta.
  destruct (create_object dev) as [cc d1] eqn:E1.
  destruct (create_object d1) as [sb d2] eqn:E2.
  destruct (allocate_memory 0 d2) as [sm d3] eqn:E3.
  destruct (create_object d3) as [img d4] eqn:E4.
  destruct (allocate_memory 0 d4) as [mem d5] eqn:E5.
  destruct (create_object d5) as [f d6] eqn:E6.
  destruct (create_object (destroy_objects [f; cc; sm; sb] d6)) as [smp d7] eqn:E7.
  destruct (create_object d7) as [view d8] eqn:E8.
  intros [= <- <-].
  assert (G6 : grows dev d6 ([cc] ++ [sb] ++ [sm] ++ [img] ++ [mem] ++ [f] ++ []))
    by (repeat (eapply grows_trans; [grows_base|]); apply grows_refl).
  assert (A6 : allocates dev d6 ([cc] ++ [sb] ++ [sm] ++ [img] ++ [mem] ++ [f] ++ [])).
  { repeat (eapply allocates_trans;
      [first [ eapply (fun d h d' H => proj1 (create_object_allocates d h d' H));
               eassumption
             | eapply allocate_memory_allocates; eassumption ]|]).
    apply allocates_refl. }
  assert (G8 : grows (destroy_objects [f; cc; sm; sb] d6) d8 ([smp] ++ [view] ++ []))
    by (repeat (eapply grows_trans; [grows_base|]); apply grows_refl).
  eapply grows_weaken.
  - eapply grows_trans; [apply destroy_objects_grows; [exact G6|] | exact G8].
    intros t' Ht. destruct A6 as (_ & _ & Hr).
    destruct (Hr t') as [Hle _]; [clear - Ht; set_solver | exact Hle].
  - intros h Hh. apply elem_of_app in Hh as [Hh|Hh].
    + apply list_elem_of_filter in Hh as [Hn Hh]. unfold texture_handles. simpl.
      clear - Hn Hh. set_solver.
    + unfold texture_handles. simpl. clear - Hh. set_solver.
Qed.

Lemma create_buffer_grows dev b m dev' :
  create_buffer dev = ((b, m), dev') -> grows dev dev' [b; m].
Proof.
  unfold create_buffer.
  destruct (create_object dev) as [b1 d1] eqn:E1.
  destruct (allocate_memory 0 d1) as [m1 d2] eqn:E2. intros [= <- <- <-].
  change [b1; m1] with ([b1] ++ [m1] ++ []).
  repeat (eapply grows_trans; [grows_base|]); apply grows_refl.
Qed.

Lemma create_device_local_buffer_grows dev b m dev' :
  create_device_local_buffer dev = ((b, m), dev') -> grows dev dev' [b; m].
Proof.
  unfold create_device_local_buffer. cbv zeta.
  destruct (create_buffer dev) as [[sb sm] d1] eqn:E1.
  destruct (create_buffer d1) as [[b1 m1] d2] eqn:E2. intros [= <- <- <-].
  pose proof (create_buffer_allocates _ _ _ _ E1) as (_ & _ & Hr).
  apply create_buffer_grows in E1, E2.
  eapply grows_weaken;
    [apply destroy_objects_grows; [eapply grows_trans; [exact E1 | exact E2]|]|].
  - intros t Ht. by destruct (Hr t Ht).
  - intros h Hh. apply list_elem_of_filter in Hh as [Hn Hh].
    clear - Hn Hh. set_solver.
Qed.

Lemma mesh_from_filepath_grows dev m dev' :
  mesh_from_filepath dev = (m, dev') -> grows dev dev' (mesh_handles m).
Proof.
  unfold mesh_from_filepath.
  destruct (create_device_local_buffer dev) as [[vb vm] d1] eqn:E1.
  destruct (create_device_local_buffer d1) as [[ib im] d2] eqn:E2.
  intros [= <- <-]. apply create_device_local_buffer_grows in E1, E2.
  unfold mesh_handles. simpl. change [vb; vm; ib; im] with ([vb; vm] ++ [ib; im]).
  by eapply grows_trans.
Qed.

Ltac grows_step :=
  first [ eapply create_swapchain_grows; eassumption
        | eapply texture_load_from_file_grows; eassumption
        | eapply mesh_from_filepath_grows; eassumption
        | eapply create_objects_grows; eassumption
        | eapply create_object_grows; eassumption
        | eapply create_attachment_objects_grows; eassumption
        | eapply (fun n d bs ms d' H => proj1 (create_uniform_buffers_grows n d bs ms d' H));
          eassumption ].

Ltac grows_chain :=
  repeat (eapply grows_trans; [grows_step|]); apply grows_refl.

Lemma recreate_swapchain_owns n extent data dev data' dev' :
  owns data dev -> recreate_swapchain n extent data dev = (data', dev') ->
  owns data' dev'.
Proof.
  intros (Hown & Hml & _ & _).
  assert (Hml0 : mem_live (destroy_swapchain data dev))
    by (by apply destroy_objects_mem_live).
  assert (Hlive0 : forall x, x ∈ live (destroy_swapchain data dev) ->
            x ∈ [texture_sampler data] ++ concat (map texture_handles (textures data))
                ++ [descriptor_set_layout data] ++ mesh_handles (mesh data)
                ++ sync_handles data ++ [command_pool data]).
  { intros x Hx. unfold destroy_swapchain, destroy_objects in Hx. simpl in Hx.
    apply list_elem_of_filter in Hx as [Hn Hx]. apply Hown in Hx.
    unfold owned_handles in Hx. clear - Hn Hx. set_solver. }
  clear Hown Hml.
  unfold recreate_swapchain, create_swapchain_image_views. cbv zeta.
  destruct_lets. intros [= <- <-].
  match goal with
  | E : create_uniform_buffers _ _ = ((_, _), ?d1) |- owns _ ?dfin =>
      destruct (create_uniform_buffers_grows _ _ _ _ _ E) as (_ & Hlen & Hms);
      eassert (G1 : grows d1 dfin _) by grows_chain
  end.
  match goal with
  | |- owns _ ?dfin => eassert (G : grows (destroy_swapchain data dev) dfin _)
                         by grows_chain
  end.
  destruct G as (Gl & _ & Gml & _). split; [|split; [by apply Gml|split]].
  - intros x Hx. destruct (Gl x Hx) as [Hx0|Hx0].
    + apply Hlive0 in Hx0. unfold owned_handles, sync_handles in *. simpl.
      clear - Hx0. set_solver.
    + unfold owned_handles, swapchain_handles. simpl. clear - Hx0. set_solver.
  - exact Hlen.
  - intros m Hm. destruct (Hms m Hm) as [Hs Hlt].
    by apply (grows_memory _ _ _ _ G1).
Qed.

Lemma create_app_owns n extent :
  let '(a, d) := create_app n extent in owns (data a) d.
Proof.
  destruct (create_app n extent) as [a d] eqn:Ecreate. revert Ecreate.
  unfold create_app, create_swapchain_image_views. cbv zeta.
  destruct_lets. intros [= <- <-].
  match goal with
  | E : create_uniform_buffers _ _ = ((_, _), ?d1),
    E' : create_sync_objects _ ?dk = _ |- _ =>
      destruct (create_uniform_buffers_grows _ _ _ _ _ E) as (_ & Hlen & Hms);
      eassert (G1 : grows d1 dk _) by grows_chain;
      eassert (G : grows initial_device dk _) by grows_chain;
      unfold create_sync_objects in E';
      cbn [image_available_semaphores render_finished_semaphores in_flight_fences] in E';
      unfold MAX_FRAMES_IN_FLIGHT in E'; rewrite create_sync_loop_two in E';
      injection E'; intros; subst
  end.
  destruct G as (Gl & _ & Gml & _). split; [|split; [|split]].
  - intros x Hx. simpl in Hx.
    repeat (apply elem_of_cons in Hx as [->|Hx];
            [unfold owned_handles, sync_handles; simpl; clear; set_solver|]).
    destruct (Gl x Hx) as [Hx0|Hx0]; [simpl in Hx0; by apply not_elem_of_nil in Hx0|].
    unfold owned_handles, swapchain_handles. simpl. clear - Hx0. set_solver.
  - intros k Hk. simpl in *. do 6 (apply elem_of_cons; right).
    apply Gml; [|done]. intros k' Hk'. simpl in Hk'. by destruct Hk'.
  - exact Hlen.
  - intros m' Hm'. simpl. destruct (Hms m' Hm') as [Hs Hlt].
    by apply (grows_memory _ _ _ _ G1).
Qed.

Lemma update_uniform_buffer_owns ubo i a d a' d' :
  owns (data a) d -> update_uniform_buffer ubo i a d = inl (a', d') ->
  owns (data a') d'.
Proof.
  intros (Hown & Hml & Hlen & Hms). unfold update_uniform_buffer.
  destruct (uniform_buffers_memory (data a) !! i) as [m|] eqn:Em; [|discriminate].
  destruct (memory d !! m) as [old|] eqn:Eold; [|discriminate].
  intros [= <- <-]. split; [done|]. split; [|split; [done|]].
  - intros k Hk. simpl in *. destruct (decide (k = m)) as [->|Hne].
    + apply Hml. by rewrite Eold.
    + rewrite lookup_insert_ne in Hk by done. by apply Hml.
  - intros m' Hm'. simpl. destruct (decide (m' = m)) as [->|Hne].
    + rewrite lookup_insert_eq. by eexists.
    + rewrite lookup_insert_ne by done. by apply Hms.
Qed.

Lemma owns_set_images_in_flight a iif d :
  owns (data a) d -> owns (data (set_images_in_flight a iif)) d.
Proof. done. Qed.

Lemma owns_invariant n extent st :
  reachable n extent st -> owns (data (app st)) (dev st).
Proof.
  intros Hr. induction Hr as [|st st' Hr IH Hs].
  - unfold init_state. pose proof (create_app_owns n extent) as H.
    destruct (create_app n extent). exact H.
  - destruct Hs as [Hc|Hg]; [inversion Hc; subst | inversion Hg; subst];
      simpl in *; try done.
    + (* submit *)
      eapply update_uniform_buffer_owns; [|eassumption].
      by apply owns_set_images_in_flight.
    + (* recreate *)
      rewrite data_after_recreate.
      apply recreate_app_inv in H0 as (_ & _ & Hrec).
      by eapply recreate_swapchain_owns.
Qed.

(** In every state the frame loop reaches, [App::destroy] leaves no live
    object and no allocated device memory behind: every object the
    application created since [App::create] (the swapchain objects across
    any number of swapchain recreations, the frame slots, the texture's
    image, memory, view and sampler, the texture sampler, the mesh's
    buffers and memories) is one that [destroy_swapchain], [App::destroy],
    [Texture::destroy] or [Mesh::destroy] destroys, or a temporary of the
    texture and mesh uploads that was already released. *)
Theorem destroy_releases_everything n extent st :
  reachable n extent st ->
  live (destroy (data (app st)) (dev st)) = [] /\
  memory (destroy (data (app st)) (dev st)) = ∅.
Proof.
  intros Hr. destruct (owns_invariant n extent st Hr) as (Hown & Hml & _ & _).
  split.
  - destruct (live (destroy (data (app st)) (dev st))) as [|x l] eqn:E; [done|].
    exfalso. assert (Hx : x ∈ live (destroy (data (app st)) (dev st)))
      by (rewrite E; apply elem_of_cons; by left).
    unfold destroy, destroy_swapchain, destroy_objects in Hx. simpl in Hx.
    apply list_elem_of_filter in Hx as [Hn1 Hx].
    apply list_elem_of_filter in Hx as [Hn2 Hx].
    apply Hown in Hx. unfold owned_handles, sync_handles in Hx.
    clear - Hx Hn1 Hn2. set_solver.
  - apply map_empty. intros k.
    unfold destroy, destroy_swapchain, destroy_objects. cbn [memory].
    rewrite !foldr_delete_lookup. repeat case_decide; try done.
    destruct (memory (dev st) !! k) eqn:Ek; [|done]. exfalso.
    assert (Hk : k ∈ live (dev st)) by (apply Hml; rewrite Ek; by eexists).
    apply Hown in Hk. unfold owned_handles, sync_handles in Hk.
    match goal with
    | H1 : k ∉ _, H2 : k ∉ _ |- _ => clear - Hk H1 H2; set_solver
    end.
Qed.

Lemma destroy_releases_everything_witness :
  exists st,
    reachable 3 (800, 600)%Z st /\ pc st = AtWaitFence /\
    length (swapchain_images (data (app st))) = 2%nat /\
    live (destroy (data (app st)) (dev st)) = [] /\
    memory (destroy (data (app st)) (dev st)) = ∅.
Proof.
  pose proof (reach_init 3 (800, 600)%Z) as H0. vm_compute in H0.
  assert (H1 := H0). eapply reach_step in H1;
    [|left; apply step_wait_fence; reflexivity].
  assert (H2 := H1). eapply reach_step in H2;
    [|left; apply step_acquire_out_of_date].
  assert (H3 := H2).
  match type of H2 with
  | reachable _ _ (mk ?a ?d _ _) =>
      eapply reach_step in H3;
        [|left; apply (step_recreate a d false 2 (1024, 768)%Z
                         (fst (recreate_app 2 (1024, 768)%Z a d))
                         (snd (recreate_app 2 (1024, 768)%Z a d)));
          [lia | apply surjective_pairing]]
  end.
  vm_compute in H3.
  eexists. split; [exact H3|]. split; [reflexivity|]. split; [reflexivity|].
  exact (destroy_releases_everything 3 (800, 600)%Z _ H3).
Defined.

(** When the frame loop reaches the submission for image [i], the
    [update_uniform_buffer(image_index)] call never fails: the index is
    in range of [uniform_buffers_memory] and its memory can be mapped, also
    after any number of swapchain recreations; so the submission step can
    always be taken. *)
Theorem submit_uniform_update_succeeds n extent st i ubo :
  reachable n extent st -> pc st = AtSubmit i ->
  (exists a' d',
     update_uniform_buffer ubo i
       (set_images_in_flight (app st)
          (<[i := current_fence (app st)]> (images_in_flight (data (app st)))))
       (dev st) = inl (a', d')) /\
  exists st', cpu_step st st'.
Proof.
  intros Hr Hpc.
  destruct (owns_invariant n extent st Hr) as (_ & _ & Hlen & Hms).
  destruct (frame_loop_invariant n extent st Hr) as (_ & Hiif & _ & _ & Hpc').
  rewrite Hpc in Hpc'. destruct Hpc' as (_ & Hi & _).
  assert (Hup : exists a' d',
     update_uniform_buffer ubo i
       (set_images_in_flight (app st)
          (<[i := current_fence (app st)]> (images_in_flight (data (app st)))))
       (dev st) = inl (a', d')).
  { unfold update_uniform_buffer. simpl.
    destruct (uniform_buffers_memory (data (app st)) !! i) as [m|] eqn:Em;
      [|apply lookup_ge_None in Em; lia].
    destruct (Hms m (list_elem_of_lookup_2 _ _ _ Em)) as [old Hold].
    rewrite Hold. by eexists _, _. }
  split; [done|]. destruct Hup as (a' & d' & Hup).
  destruct st as [a d p c]. simpl in *. subst c.
  eexists. by eapply step_submit.
Qed.

Lemma submit_uniform_update_succeeds_witness :
  exists st,
    reachable 3 (800, 600)%Z st /\ pc st = AtSubmit 0 /\
    exists a' d',
      update_uniform_buffer [] 0
        (set_images_in_flight (app st)
           (<[0%nat := current_fence (app st)]> (images_in_flight (data (app st)))))
        (dev st) = inl (a', d').
Proof.
  pose proof (reach_init 3 (800, 600)%Z) as H0. vm_compute in H0.
  assert (H1 := H0). eapply reach_step in H1;
    [|left; apply step_wait_fence; reflexivity].
  assert (H2 := H1). eapply reach_step in H2;
    [|left; apply (step_acquire _ _ _ 0); vm_compute; lia].
  assert (H3 := H2). eapply reach_step in H3;
    [|left; apply step_wait_image; vm_compute; reflexivity].
  eexists. split; [exact H3|]. split; [reflexivity|].
  exact (proj1 (submit_uniform_update_succeeds 3 (800, 600)%Z _ 0 [] H3 eq_refl)).
Defined.

End OwnershipProofs.

(** ** Copy regions of the texture upload *)

Section TextureProofs.

Import Mipmaps TextureUpload.

Lemma copy_regions_length i fuel width height offset size :
  length (copy_regions i fuel width height offset size) = fuel.
Proof.
  revert i offset. induction fuel as [|fuel IH]; intros i offset; simpl; [done|].
  by rewrite IH.
Qed.

Lemma copy_regions_lookup i fuel width height offset size k :
  copy_regions i fuel width height offset size !! k =
  if decide (k < fuel)%nat then
    Some {| mip_level := i + Z.of_nat k; image_extent := (width, height);
            buffer_offset := offset + Z.of_nat k * size |}
  else None.
Proof.
  revert i offset k. induction fuel as [|fuel IH]; intros i offset k;
    cbn [copy_regions].
  - case_decide; [lia|]. by destruct k.
  - destruct k as [|k].
    + case_decide; [|lia]. cbn. do 2 f_equal; lia.
    + case_decide as Hlt; cbn [lookup list_lookup]; rewrite IH;
        case_decide; try lia; [do 2 f_equal; lia | done].
Qed.

(** [load_from_file], whenever both memory-type lookups succeed: the only
    command recorded is the barrier taking all [mip_levels] levels from
    [UNDEFINED] to [TRANSFER_DST_OPTIMAL]; there is one copy region per
    level, region [k] is for level [k], has the full [width] x [height]
    extent and starts at byte [k * pixels.len()] of the staging buffer, so
    every region past level 0 starts at or past the end of the pixel data
    written there; the texture advertises the requested layout,
    [READ_ONLY_OPTIMAL] by default. *)
Theorem load_from_file_copy_regions memory buffer_memory_requirements
    image_memory_requirements pixels width height staging_buffer image image_layout up :
  load_from_file memory buffer_memory_requirements image_memory_requirements
    pixels width height staging_buffer image image_layout = inl up ->
  let size := Z.of_nat (length (staging_contents up)) in
  staging_contents up = pixels /\
  recorded up = [CmdPipelineBarrier image UNDEFINED TRANSFER_DST_OPTIMAL 0
                   (MipLevels.mip_levels width height)] /\
  length (buffer_copy_regions up) = Z.to_nat (MipLevels.mip_levels width height) /\
  (forall k r, buffer_copy_regions up !! k = Some r ->
     mip_level r = Z.of_nat k /\ image_extent r = (width, height) /\
     buffer_offset r = Z.of_nat k * size /\
     ((1 <= k)%nat -> size <= buffer_offset r)) /\
  texture_image_layout up = default READ_ONLY_OPTIMAL image_layout.
Proof.
  unfold load_from_file. cbv zeta.
  destruct (Memory.get_memory_type_index memory (2 + 4) _); [|discriminate].
  destruct (Memory.get_memory_type_index memory 1 _); [|discriminate].
  intros [= <-]. cbn [staging_contents recorded buffer_copy_regions texture_image_layout].
  split; [done|]. split; [done|]. split; [apply copy_regions_length|].
  split; [|done].
  intros k r Hk. rewrite copy_regions_lookup in Hk.
  case_decide; [|discriminate]. injection Hk as <-. cbn.
  split; [lia|]. split; [done|]. split; [lia|]. intros Hk1. nia.
Qed.

Lemma load_from_file_copy_regions_witness :
  exists up,
    load_from_file discrete_gpu_memory (fun _ => staging_buffer_reqs 16)
      (fun _ => optimal_image_reqs 4096) (repeat 255 16) 2 2 1%N 2%N None = inl up /\
    buffer_copy_regions up !! 1%nat =
      Some {| mip_level := 1; image_extent := (2, 2); buffer_offset := 16 |} /\
    buffer_offset {| mip_level := 1; image_extent := (2, 2); buffer_offset := 16 |}
      = 1 * Z.of_nat (length (staging_contents up)).
Proof.
  eexists. split; [vm_compute; reflexivity|]. split; [vm_compute; reflexivity|].
  refine (proj1 (proj2 (proj2 (proj1 (proj2 (proj2 (proj2
            (load_from_file_copy_regions discrete_gpu_memory
               (fun _ => staging_buffer_reqs 16) (fun _ => optimal_image_reqs 4096)
               (repeat 255 16) 2 2 1%N 2%N None _ _)))) 1%nat _ _)))).
  - vm_compute. reflexivity.
  - vm_compute. reflexivity.
Defined.

End TextureProofs.

(** ** Signed zeros in the vertex deduplication *)

Section SignedZero.

Import Dedup.

Lemma vertex_eq_pos_x (v : Vertex) (x' : f32) :
  f32_eq (x (pos v)) x' = true -> vertex_eq v v = true ->
  vertex_eq v {| pos := vec3 x' (y (pos v)) (z (pos v)); color := color v;
                 tex_coord := tex_coord v; normal := normal v |} = true.
Proof.
  intros H1 H2. unfold vertex_eq, vec3_eq in *. cbn [pos color tex_coord normal x y z].
  rewrite H1. repeat rewrite andb_true_iff in *. tauto.
Qed.

(** [impl PartialEq for Vertex] and [impl Hash for Vertex] disagree on
    signed zeros: for every NaN-free vertex whose [pos.x] is [+0.0] or
    [-0.0], flipping the sign of that zero gives a vertex that compares
    [==] to it but feeds different words to the hasher. The deduplication
    loop of [Mesh::from_filepath] on the two then depends on the hash
    tags: under every lookup with hashbrown's guarantees it either keeps
    both as separate vertices (indices [0; 1]) or merges them (one vertex,
    indices [0; 0]), and both outcomes occur, the first when the tags of
    the two differ ([unique_vertices_get]), the second when the probe
    meets the stored one ([merging_get]). *)
Theorem vertex_signed_zero_split (v : Vertex) :
  vertex_eq v v = true -> x (pos v) = 0 \/ x (pos v) = 2 ^ 31 ->
  let v' := {| pos := vec3 (Z.lxor (x (pos v)) (2 ^ 31)) (y (pos v)) (z (pos v));
               color := color v; tex_coord := tex_coord v; normal := normal v |} in
  vertex_eq v v' = true /\ hash_words v <> hash_words v' /\
  (forall get, hashmap_get_ok get ->
     dedup_by get [v; v'] = ([v; v'], [0%nat; 1%nat]) \/
     dedup_by get [v; v'] = ([v], [0%nat; 0%nat])) /\
  hashmap_get_ok unique_vertices_get /\
  dedup_by unique_vertices_get [v; v'] = ([v; v'], [0%nat; 1%nat]) /\
  hashmap_get_ok merging_get /\
  dedup_by merging_get [v; v'] = ([v], [0%nat; 0%nat]).
Proof.
  intros Hself Hx v'.
  assert (Hh : hash_words v <> hash_words v').
  { intros H. apply (f_equal (hd 0)) in H. subst v'. simpl in H.
    destruct Hx as [Hx|Hx]; rewrite Hx in H; vm_compute in H; discriminate. }
  assert (Heq : vertex_eq v v' = true).
  { subst v'. apply vertex_eq_pos_x; [|exact Hself].
    destruct Hx as [Hx|Hx]; rewrite Hx; vm_compute; reflexivity. }
  split; [exact Heq|]. split; [exact Hh|]. split; [|split; [|split; [|split]]].
  - intros get Hget. unfold dedup_by. cbn [dedup_loop_by].
    destruct (get [] v) as [i|] eqn:E1.
    + destruct (proj1 (Hget [] v) i E1) as (e & He & _). inversion He.
    + destruct (get [(v, length (@nil Vertex))] v') as [i|] eqn:E2.
      * destruct (proj1 (Hget _ v') i E2) as (e & He & _ & <-).
        apply list_elem_of_singleton in He as ->. right. reflexivity.
      * left. reflexivity.
  - exact unique_vertices_get_ok.
  - unfold dedup_by. cbn [dedup_loop_by].
    assert (Hn1 : unique_vertices_get [] v = None) by done. rewrite Hn1.
    assert (Hn2 : unique_vertices_get [(v, length (@nil Vertex))] v' = None).
    { unfold unique_vertices_get. simpl. rewrite bool_decide_false by exact Hh.
      done. }
    rewrite Hn2. done.
  - exact merging_get_ok.
  - unfold dedup_by. cbn [dedup_loop_by].
    assert (Hn1 : merging_get [] v = None) by done. rewrite Hn1.
    assert (Hs2 : merging_get [(v, length (@nil Vertex))] v' = Some 0%nat).
    { unfold merging_get. cbn [List.find fst]. rewrite vertex_eq_sym, Heq.
      reflexivity. }
    rewrite Hs2. done.
Qed.

Lemma vertex_signed_zero_split_witness :
  let w := {| pos := vec3 ZERO ZERO ZERO; color := vec3 ONE ONE ONE;
              tex_coord := vec2 ZERO ONE; normal := vec3 ZERO ZERO ONE |} in
  let w' := {| pos := vec3 (Z.lxor (x (pos w)) (2 ^ 31)) (y (pos w)) (z (pos w));
               color := color w; tex_coord := tex_coord w; normal := normal w |} in
  vertex_eq w w = true /\ x (pos w) = 0 /\
  dedup_by unique_vertices_get [w; w'] = ([w; w'], [0%nat; 1%nat]) /\
  dedup_by merging_get [w; w'] = ([w], [0%nat; 0%nat]).
Proof.
  cbv zeta.
  match goal with
  | |- vertex_eq ?w _ = true /\ _ =>
      assert (Hw : vertex_eq w w = true) by (vm_compute; reflexivity);
      pose proof (vertex_signed_zero_split w Hw (or_introl eq_refl)) as Hs;
      cbv zeta in Hs;
      destruct Hs as (_ & _ & _ & _ & Hu & _ & Hm);
      exact (conj Hw (conj eq_refl (conj Hu Hm)))
  end.
Defined.

End SignedZero.
